(** * FromJS: provenance tracking of strings

    A shallow embedding of
      - [src/tracing/FromJSString.js]  (tracked strings and their handlers),
      - the tracing switch ([enableTracing] / [disableTracing]),
      - the [/traverse] and [/loadLog] endpoints of [packages/backend/backend.ts],
    together with the properties the specification states about them. *)

From Stdlib Require Import String Ascii List ZArith Lia Bool Arith.
From Stdlib Require Import DecimalString DecimalNat DecimalZ.
Import ListNotations.
Open Scope string_scope.

Set Implicit Arguments.

(** ** Exceptions

    A JavaScript computation either returns a value or throws. *)

Inductive Result (A : Type) : Type :=
| Ok (a : A)
| Throw (exn : string).
Arguments Ok {A} a.
Arguments Throw {A} exn.

Definition bind {A B} (m : Result A) (k : A -> Result B) : Result B :=
  match m with
  | Ok a => k a
  | Throw e => Throw e
  end.

Notation "x <- m ;; k" := (bind m (fun x => k))
  (at level 61, m at next level, right associativity).

(** ** Native string operations

    Strings are sequences of code units; the operations below are the
    native [String.prototype] functions the handlers call, restricted to
    integer indices. *)

Module JSString.

(** [s.substring(a, b)] for non-negative indices: both ends are clamped
    to the length and swapped when out of order. *)
Definition substring (s : string) (a b : nat) : string :=
  let len := String.length s in
  let a' := Nat.min a len in
  let b' := Nat.min b len in
  String.substring (Nat.min a' b') (Nat.max a' b' - Nat.min a' b') s.

(** [s.substring(a)]. *)
Definition substringFrom (s : string) (a : nat) : string :=
  substring s a (String.length s).

(** Relative index of [slice]: a negative index counts from the end,
    and the result is clamped to [0 .. len]. *)
Definition relativeIndex (len : nat) (i : Z) : nat :=
  if (i <? 0)%Z then Z.to_nat (Z.max (Z.of_nat len + i) 0)
  else Nat.min (Z.to_nat i) len.

(** [s.slice(from, to)]; [to = None] is [undefined]. *)
Definition slice (s : string) (from : Z) (to : option Z) : string :=
  let len := String.length s in
  let k := relativeIndex len from in
  let final := match to with
               | None => len
               | Some t => relativeIndex len t
               end in
  String.substring k (final - k) s.

(** [s.substr(start, length)]; [length = None] is [undefined]. *)
Definition substr (s : string) (start : Z) (length : option Z) : string :=
  let size := String.length s in
  let intStart := relativeIndex size start in
  let intLength := match length with
                   | None => size
                   | Some l => Nat.min (Z.to_nat (Z.max l 0)) size
                   end in
  let intEnd := Nat.min (intStart + intLength) size in
  String.substring intStart (intEnd - intStart) s.

(** [s.indexOf(p)], with [-1] when [p] does not occur. *)
Definition indexOf (s p : string) : Z :=
  match String.index 0 p s with
  | Some i => Z.of_nat i
  | None => (-1)%Z
  end.

(** [s.split(sep)] for a non-empty string separator.  [skip] counts the
    code units of a separator occurrence still to be passed over and
    [cur] is the fragment read so far. *)
Fixpoint splitAt (sep s : string) (skip : nat) (cur : string) : list string :=
  match s with
  | EmptyString => [cur]
  | String c s' =>
      match skip with
      | S k => splitAt sep s' k cur
      | O =>
          if String.prefix sep s
          then cur :: splitAt sep s' (String.length sep - 1) EmptyString
          else splitAt sep s' 0 (cur ++ String c EmptyString)
      end
  end.

(** [s.split("")]: one fragment per code unit. *)
Fixpoint chars (s : string) : list string :=
  match s with
  | EmptyString => []
  | String c s' => String c EmptyString :: chars s'
  end.

Definition split (s sep : string) : list string :=
  match sep with
  | EmptyString => chars s
  | _ => splitAt sep s 0 EmptyString
  end.

(** [fragments.join(sep)]. *)
Definition join (sep : string) (l : list string) : string :=
  String.concat sep l.

(** Decimal rendering of an integer, as [ToString] does for a number
    below [10^21] in absolute value. *)
Definition ofZ (z : Z) : string := NilZero.string_of_int (Z.to_int z).

(** Decimal rendering of an array index. *)
Definition ofNat (n : nat) : string := NilEmpty.string_of_uint (Nat.to_uint n).

End JSString.

(** ** Origins and value maps *)

Module OriginModel.

(** Modelled from the spec: a per-input starting offset of an origin
    (section 3 of the specification), kept the way the callers compute
    it: a number, or the text that [+] yields when its left operand is a
    text. *)
Inductive CharacterIndex : Type :=
| IndexAt (k : Z)
| IndexText (s : string).

(** Modelled from the spec: the [Origin] constructor of [src/origin.js]
    is not part of the sources at hand.  An origin is the record of section 3 of
    the specification: an action tag, the resulting value, the inputs,
    the optional per-input starting offsets and the optional serialized
    value map.  Inputs are kept the way the callers pass them: an origin,
    the [{value, origin}] literal built for a non-string argument, or a
    tracked string. *)
Inductive Origin : Type :=
| mkOrigin (action : option string) (value : string)
    (inputValues : list InputValue)
    (inputValuesCharacterIndex : list CharacterIndex)
    (valueItems : option (list Segment))
with InputValue : Type :=
| IOrigin (o : Origin)
| IValueOrigin (value : string) (origin : Origin)
| ITracked (value : string) (origin : Origin)
with Segment : Type :=
| mkSegment (origin : InputValue) (originOffset : Z) (length : nat).

Definition o_action (o : Origin) := let 'mkOrigin a _ _ _ _ := o in a.
Definition o_value (o : Origin) := let 'mkOrigin _ v _ _ _ := o in v.
Definition o_inputValues (o : Origin) := let 'mkOrigin _ _ i _ _ := o in i.
Definition o_inputValuesCharacterIndex (o : Origin) :=
  let 'mkOrigin _ _ _ c _ := o in c.
Definition o_valueItems (o : Origin) := let 'mkOrigin _ _ _ _ v := o in v.

Definition seg_origin (s : Segment) := let 'mkSegment o _ _ := s in o.
Definition seg_originOffset (s : Segment) := let 'mkSegment _ k _ := s in k.
Definition seg_length (s : Segment) := let 'mkSegment _ _ n := s in n.

(** The value an input stands for. *)
Definition inputValue_value (i : InputValue) : string :=
  match i with
  | IOrigin o => o_value o
  | IValueOrigin v _ => v
  | ITracked v _ => v
  end.

(** Modelled from the spec: [src/value-map.js] is not part of the sources
    at hand.  A value map is the ordered sequence of segments appended so far
    (section 4.2: append-segment records the source origin, the offset in
    that origin's value and the length of the appended text). *)
Record ValueMap : Type := { items : list Segment }.

Definition newValueMap : ValueMap := {| items := [] |}.

Definition appendString (m : ValueMap) (str : string) (origin : InputValue)
  (indexInOriginValue : Z) : ValueMap :=
  {| items := items m ++ [mkSegment origin indexInOriginValue (String.length str)] |}.

(** Modelled from the spec: [serialize] yields the persisted form of the
    segments; every segment keeps its origin reference, offset and length. *)
Definition serialize (m : ValueMap) (inputValues : list InputValue) : list Segment :=
  items m.

(** Output range [(from, to)] of every segment: a segment starts where
    its predecessor ends, the first one at [start]. *)
Fixpoint outputRanges (start : nat) (l : list Segment) : list (nat * nat) :=
  match l with
  | [] => []
  | s :: l' => (start, start + seg_length s) :: outputRanges (start + seg_length s) l'
  end.

Definition totalLength (l : list Segment) : nat :=
  fold_right (fun s acc => seg_length s + acc) 0 l.

(** [Tiles a ranges b]: the ranges follow one another from [a] to [b]
    without gap or overlap. *)
Inductive Tiles : nat -> list (nat * nat) -> nat -> Prop :=
| Tiles_nil a : Tiles a [] a
| Tiles_cons a b rest c :
    a <= b -> Tiles b rest c -> Tiles a ((a, b) :: rest) c.

(** The segments partition the output [out]: laid out from left to right
    they cover it exactly. *)
Definition Partitions (l : list Segment) (out : string) : Prop :=
  Tiles 0 (outputRanges 0 l) (String.length out)
  /\ totalLength l = String.length out.

(** The text a segment points to in its source. *)
Definition sourceText (s : Segment) : string :=
  String.substring (Z.to_nat (seg_originOffset s)) (seg_length s)
    (inputValue_value (seg_origin s)).

(** The output rebuilt from the sources of the segments, in order. *)
Definition reconstruct (l : list Segment) : string :=
  fold_right (fun s acc => sourceText s ++ acc) EmptyString l.

(** Modelled from the spec: [untrackedArgument] of
    [src/tracing/untrackedArgument.js] is not part of the sources at hand.  It
    gives a plain string argument a root origin of its own (no inputs, no
    value map) holding the literal as its value; the spec fixes no action
    tag for it. *)
Definition untrackedArgument (arg : string) : Origin :=
  mkOrigin None arg [] [] None.

End OriginModel.
Import OriginModel.

(** ** Tracked strings: construction, accessors and the index proxy *)

Module Tracked.

(** The values a tracked string can be built from or can hold.  A
    tracked string (the proxy around a [FromJSString] object) carries the
    value it wraps and its origin. *)
Inductive JSValue : Type :=
| VUndefined
| VNull
| VBool (b : bool)
| VNumber (n : Z)
| VString (s : string)
| VTracked (value : JSValue) (origin : Origin).

Definition typeOf (v : JSValue) : string :=
  match v with
  | VUndefined => "undefined"
  | VNull => "object"
  | VBool _ => "boolean"
  | VNumber _ => "number"
  | VString _ => "string"
  | VTracked _ _ => "object"
  end.

(** [v.isStringTraceString], as a truth value. *)
Definition isStringTraceString (v : JSValue) : bool :=
  match v with
  | VTracked _ _ => true
  | _ => false
  end.

(** [v] is a plain string [s] under zero or more tracked wrappers. *)
Inductive Wraps : JSValue -> string -> Prop :=
| Wraps_plain s : Wraps (VString s) s
| Wraps_tracked inner o s : Wraps inner s -> Wraps (VTracked inner o) s.

Record FromJSStringObject : Type := { value : JSValue; origin : Origin }.

(** The loop [while (value.isStringTraceString) value = value.value];
    reading a property of [undefined] or [null] throws. *)
Fixpoint unwrapValue (value : JSValue) : Result JSValue :=
  match value with
  | VTracked inner _ => unwrapValue inner
  | VUndefined | VNull => Throw "TypeError"
  | _ => Ok value
  end.

(** [new FromJSString(options)]. *)
Definition FromJSString (options_value : JSValue) (options_origin : Origin)
  : Result FromJSStringObject :=
  value <- unwrapValue options_value ;;
  Ok {| value := value; origin := options_origin |}.

(** Modelled from the spec: [stringTraceUseValue] of
    [src/tracing/stringTraceUseValue.js] is not part of the sources at hand.  It
    is the normalization step of section 4.1: a tracked value is replaced
    by the value it wraps, any other value is returned as it is. *)
Definition stringTraceUseValue (a : JSValue) : JSValue :=
  match a with
  | VTracked v _ => v
  | _ => a
  end.

Record Options : Type := { opt_value : JSValue; opt_origin : option Origin }.

(** [makeTraceObject(options)]; the proxy it returns is the tracked value
    [VTracked]. *)
Definition makeTraceObject (options : Options) : Result JSValue :=
  if negb (typeOf (opt_value options) =? "string") then Ok (opt_value options)
  else
    match opt_origin options with
    | None => Throw "invalid options for makeTraceObject"
    | Some o =>
        stringTraceObject <- FromJSString (stringTraceUseValue (opt_value options)) o ;;
        Ok (VTracked (value stringTraceObject) (origin stringTraceObject))
    end.


(** *** Accessors of [FromJSString.prototype] *)

Definition valueOf (this : FromJSStringObject) : JSValue := value this.
Definition toJSON (this : FromJSStringObject) : JSValue := value this.
Definition toString (this : FromJSStringObject) : JSValue := value this.

(** [v.length]. *)
Fixpoint lengthOf (v : JSValue) : Result JSValue :=
  match v with
  | VString s => Ok (VNumber (Z.of_nat (String.length s)))
  | VTracked inner _ => lengthOf inner
  | VUndefined | VNull => Throw "TypeError"
  | _ => Ok VUndefined
  end.

(** The getter of [length]. *)
Definition get_length (this : FromJSStringObject) : Result JSValue :=
  lengthOf (value this).

(** *** The proxy's [get] trap *)

Definition isDigit (c : ascii) : bool :=
  let n := nat_of_ascii c in ((48 <=? n) && (n <=? 57))%nat.

Definition isWhiteSpace (c : ascii) : bool :=
  let n := nat_of_ascii c in (((9 <=? n) && (n <=? 13)) || (n =? 32))%nat.

Fixpoint skipWhiteSpace (s : string) : string :=
  match s with
  | String c s' => if isWhiteSpace c then skipWhiteSpace s' else s
  | EmptyString => EmptyString
  end.

(** [isNaN(parseFloat(name))]: [parseFloat] skips leading white space and
    an optional sign and then needs the start of a decimal literal: a
    digit, a dot followed by a digit, or [Infinity]. *)
Definition parseFloat_isNaN (name : string) : bool :=
  let unsigned :=
    match skipWhiteSpace name with
    | String c r => if (c =? "+")%char || (c =? "-")%char then r else String c r
    | EmptyString => EmptyString
    end in
  match unsigned with
  | String c r =>
      if isDigit c then false
      else if (c =? ".")%char
           then match r with
                | String d _ => negb (isDigit d)
                | EmptyString => true
                end
           else negb (String.prefix "Infinity" unsigned)
  | EmptyString => true
  end.

(** The array index a property name denotes, if it is the canonical
    decimal rendering of one. *)
Definition arrayIndex (name : string) : option nat :=
  match NilEmpty.uint_of_string name with
  | Some u =>
      let i := Nat.of_uint u in
      if (JSString.ofNat i =? name) then Some i else None
  | None => None
  end.

(** [v[name]] for a property name that [parseFloat] reads as a number:
    a string has such a property only at its indices. *)
Fixpoint getIndexed (v : JSValue) (name : string) : Result JSValue :=
  match v with
  | VString s =>
      match arrayIndex name with
      | Some i =>
          match String.get i s with
          | Some c => Ok (VString (String c EmptyString))
          | None => Ok VUndefined
          end
      | None => Ok VUndefined
      end
  | VTracked inner _ => getIndexed inner name
  | VUndefined | VNull => Throw "TypeError"
  | _ => Ok VUndefined
  end.

Inductive PropertyKey : Type :=
| KSymbol (description : string)
| KName (name : string).

(** What a property read yields: a value, the origin object, the global
    [String] constructor, or whatever the prototype chain holds under
    that name (the handler functions and accessors, not detailed here). *)
Inductive Property : Type :=
| PValue (v : JSValue)
| POrigin (o : Origin)
| PWindowString
| PPrototype (name : PropertyKey).

(** [stringTraceObject[name]]. *)
Definition ownOrInherited (stringTraceObject : FromJSStringObject)
  (name : PropertyKey) : Result Property :=
  match name with
  | KName n =>
      if n =? "value" then Ok (PValue (value stringTraceObject))
      else if n =? "origin" then Ok (POrigin (origin stringTraceObject))
      else if n =? "isStringTraceString" then Ok (PValue (VBool true))
      else if n =? "length" then
             v <- get_length stringTraceObject ;; Ok (PValue v)
      else Ok (PPrototype name)
  | KSymbol _ => Ok (PPrototype name)
  end.

(** The [get] trap installed by [makeTraceObject]. *)
Definition proxy_get (target : FromJSStringObject) (name : PropertyKey)
  : Result Property :=
  match name with
  | KName n =>
      if negb (parseFloat_isNaN n) then
        v <- getIndexed (value target) n ;; Ok (PValue v)
      else if n =? "constructor" then Ok PWindowString
      else ownOrInherited target name
  | KSymbol _ => ownOrInherited target name
  end.

End Tracked.
Import Tracked.

(** ** The native regular expression engine

    Regular expressions are native objects.  A [RegExp] is given by what
    the native functions the handlers call compute with it. *)

Module Native.

(** One match as [String.prototype.replace] reports it to its callback:
    the matched text, the captures ([None] is [undefined]), the position
    of the match in the subject (at most its length) and, for an
    expression with named capture groups, the [groups] object, which
    gives every name its capture. *)
Record Match : Type := {
  m_match : string;
  m_submatches : list (option string);
  m_offset : nat;
  m_groups : option (list (string * option string))
}.

Record RegExp : Type := {
  (** [re.toString()] *)
  re_toString : string;
  (** the matches [s.replace(re, _)] visits: all of them for a global
      expression, the first one otherwise *)
  re_replaceMatches : string -> list Match;
  (** [s.match(re')] for the global clone [re'] of [re]; [None] is [null] *)
  re_matchGlobal : string -> option (list string);
  (** [s.split(re)]; a capture group that took no part in a match
      contributes [undefined] ([None]) *)
  re_split : string -> list (option string)
}.

(** The matches of a replace are reported from left to right, each one at
    or after the end of the previous one and inside the subject. *)
Fixpoint matchesOrdered (len : nat) (from : nat) (ms : list Match) : bool :=
  match ms with
  | [] => true
  | m :: ms' =>
      ((from <=? m_offset m) && (m_offset m <=? len))%nat
      && matchesOrdered len (m_offset m + String.length (m_match m)) ms'
  end.

(** [s.replace(p, _)] with a string pattern visits the first occurrence
    of [p] only. *)
Definition stringMatches (s p : string) : list Match :=
  match String.index 0 p s with
  | Some i => [{| m_match := p; m_submatches := []; m_offset := i;
                  m_groups := None |}]
  | None => []
  end.

(** The loop of [String.prototype.replace] with a function as second
    argument: the callback is called for every match in turn and what it
    returns is spliced in between the unmatched spans of [s]. *)
Fixpoint replaceLoop {St : Type} (s : string)
  (callback : Match -> St -> Result (string * St))
  (ms : list Match) (nextSourcePosition : nat) (accumulatedResult : string)
  (st : St) : Result (string * St) :=
  match ms with
  | [] => Ok (accumulatedResult ++ JSString.substringFrom s nextSourcePosition, st)
  | m :: ms' =>
      r <- callback m st ;;
      let position := m_offset m in
      if (nextSourcePosition <=? position)%nat
      then replaceLoop s callback ms'
             (position + String.length (m_match m))
             (accumulatedResult
                ++ JSString.substring s nextSourcePosition position ++ fst r)
             (snd r)
      else replaceLoop s callback ms' nextSourcePosition accumulatedResult (snd r)
  end.

Definition replaceWithFunction {St : Type} (s : string) (ms : list Match)
  (callback : Match -> St -> Result (string * St)) (st : St)
  : Result (string * St) :=
  replaceLoop s callback ms 0 EmptyString st.

(** The first [k] elements of [l]. *)
Fixpoint firstZ {A : Type} (k : Z) (l : list A) : list A :=
  match l with
  | [] => []
  | x :: l' => if (k <=? 0)%Z then [] else x :: firstZ (k - 1) l'
  end.

(** [s.split(sep, limit)] for an integer [limit]: the first
    [ToUint32(limit)] fragments. *)
Definition splitLimit {A : Type} (fragments : list A) (limit : option Z) : list A :=
  match limit with
  | Some n => firstZ (n mod 4294967296) fragments
  | None => fragments
  end.

(** Fragments with the separator text spliced in between, as [split]
    does for an expression with one capture group around all of it. *)
Fixpoint intersperse (sep : string) (l : list string) : list string :=
  match l with
  | [] => []
  | [x] => [x]
  | x :: l' => x :: sep :: intersperse sep l'
  end.

(** The expression [/lit/] (or [/(lit)/] with [capture]) for a non-empty
    text [lit] without special characters. *)
Definition literalRegExp (lit : string) (capture : bool) : RegExp := {|
  re_toString := "/" ++ (if capture then "(" ++ lit ++ ")" else lit) ++ "/";
  re_replaceMatches := fun s =>
    match String.index 0 lit s with
    | Some i => [{| m_match := lit;
                    m_submatches := if capture then [Some lit] else [];
                    m_offset := i;
                    m_groups := None |}]
    | None => []
    end;
  re_matchGlobal := fun s =>
    match List.length (JSString.split s lit) - 1 with
    | O => None
    | n => Some (repeat lit n)
    end;
  re_split := fun s =>
    map Some (if capture then intersperse lit (JSString.split s lit)
              else JSString.split s lit)
|}.

(** The positions of the occurrences of [lit] in [s] from [from] on, each
    one searched after the end of the previous one; [fuel] bounds their
    number. *)
Fixpoint occurrences (fuel : nat) (lit s : string) (from : nat) : list nat :=
  match fuel with
  | O => []
  | S fuel' =>
      match String.index from lit s with
      | Some i => i :: occurrences fuel' lit s (i + String.length lit)
      | None => []
      end
  end.

(** The global expression [/(?<name>lit)/g] for a non-empty text [lit]
    without special characters: every match comes with the [groups]
    object [{name: lit}]. *)
Definition namedGroupRegExp (name lit : string) : RegExp := {|
  re_toString := "/(?<" ++ name ++ ">" ++ lit ++ ")/g";
  re_replaceMatches := fun s =>
    map (fun i => {| m_match := lit;
                     m_submatches := [Some lit];
                     m_offset := i;
                     m_groups := Some [(name, Some lit)] |})
      (occurrences (String.length s) lit s 0);
  re_matchGlobal := fun s =>
    match List.length (JSString.split s lit) - 1 with
    | O => None
    | n => Some (repeat lit n)
    end;
  re_split := fun s => map Some (intersperse lit (JSString.split s lit))
|}.

End Native.
Import Native.

(** ** The handlers of [FromJSString.prototype] *)

Module Handlers.

(** [this] of a handler: a tracked string, whose value is a plain string
    (see [Tracked.FromJSString]). *)
Record TrackedString : Type := { ts_value : string; ts_origin : Origin }.

Definition traced (t : TrackedString) : JSValue :=
  VTracked (VString (ts_value t)) (ts_origin t).

(** A string argument, tracked or not. *)
Inductive StringArg : Type :=
| Plain (s : string)
| Traced (t : TrackedString).

(** Modelled from the spec: [unstringTracifyArguments] of
    [src/tracing/unstringTracifyArguments.js] is not part of the sources at
    hand.  It hands the native functions plain values: a tracked string
    is replaced by the value it wraps. *)
Definition unstringTracify (a : StringArg) : string :=
  match a with
  | Plain s => s
  | Traced t => ts_value t
  end.

(** The entry of [argumentOrigins] for a string argument. *)
Definition stringArgOrigin (a : StringArg) : InputValue :=
  match a with
  | Traced t => IOrigin (ts_origin t)
  | Plain s => IOrigin (untrackedArgument s)
  end.

(** The entry of [argumentOrigins] for any other argument, [str] being
    its string form. *)
Definition otherArgOrigin (str : string) : InputValue :=
  IValueOrigin str (mkOrigin None str [] [] None).

Definition toUpperCase (c : ascii) : ascii :=
  let n := nat_of_ascii c in
  if ((97 <=? n) && (n <=? 122))%nat then ascii_of_nat (n - 32) else c.

Definition capitalizeFirstCharacter (str : string) : string :=
  match str with
  | String c rest => String (toUpperCase c) rest
  | EmptyString => EmptyString
  end.

(** The end of [handlerFunction] for a string result. *)
Definition traceResult (propertyName : string) (newVal : string)
  (valueItems : option (list Segment)) (inputValues : list InputValue)
  : Result JSValue :=
  let actionName := capitalizeFirstCharacter propertyName ++ " Call" in
  makeTraceObject
    {| opt_value := VString newVal;
       opt_origin := Some (mkOrigin (Some actionName) newVal inputValues []
                             valueItems) |}.

(** *** replace *)

Inductive Pattern : Type :=
| PatString (a : StringArg)
| PatRegExp (re : RegExp).

(** What the replacement function returns: [undefined], [null], a tracked
    string, or any other value, given by its string form. *)
Inductive CallbackResult : Type :=
| CbUndefined
| CbNull
| CbTraced (t : TrackedString)
| CbUntracked (str : string).

(** A value of the arguments array of the replace callback: a text,
    [undefined], a number, a [groups] object or, once the handler has
    traced the captures, a tracked string. *)
Inductive CallbackValue : Type :=
| CvString (s : string)
| CvUndefined
| CvNumber (n : nat)
| CvGroups (g : list (string * option string))
| CvTraced (t : TrackedString).

(** A capture as the engine passes it. *)
Definition captureValue (c : option string) : CallbackValue :=
  match c with
  | Some sub => CvString sub
  | None => CvUndefined
  end.

(** The arguments the native [replace] calls its callback with for the
    match [m] of the subject [s]: the matched text, the captures, the
    position, the subject and, for an expression with named capture
    groups, the [groups] object. *)
Definition callbackArguments (s : string) (m : Match) : list CallbackValue :=
  (CvString (m_match m) :: map captureValue (m_submatches m))
  ++ [CvNumber (m_offset m); CvString s]
  ++ match m_groups m with
     | Some g => [CvGroups g]
     | None => []
     end.

(** [array[i]]; a read past the end gives [undefined]. *)
Definition arrayAt (array : list CallbackValue) (i : nat) : CallbackValue :=
  nth i array CvUndefined.

(** [array.slice(a, b)] for [a] and [b] inside the array. *)
Definition arraySlice (array : list CallbackValue) (a b : nat)
  : list CallbackValue :=
  firstn (b - a) (skipn a array).

(** The text of a value where the handler uses it as one: the value
    itself for a text, the wrapped value for a tracked string, the
    decimal rendering for a number.  The engine puts neither [undefined]
    nor a [groups] object where the handler reads a text. *)
Definition textOf (v : CallbackValue) : string :=
  match v with
  | CvString s => s
  | CvTraced t => ts_value t
  | CvNumber n => JSString.ofNat n
  | CvUndefined => "undefined"
  | CvGroups _ => "[object Object]"
  end.

(** The replacement function: its source text and what a call with the
    arguments [newArgsArray] returns or throws. *)
Record ReplaceFunction : Type := {
  fn_toString : string;
  fn_apply : list CallbackValue -> Result CallbackResult
}.

Inductive Replacement : Type :=
| ReplString (a : StringArg)
| ReplNumber (n : Z)
| ReplFunction (f : ReplaceFunction)
| ReplOther (str : string).

Definition patternOrigin (p : Pattern) : InputValue :=
  match p with
  | PatString a => stringArgOrigin a
  | PatRegExp re => otherArgOrigin (re_toString re)
  end.

Definition replacementOrigin (r : Replacement) : InputValue :=
  match r with
  | ReplString a => stringArgOrigin a
  | ReplNumber n => otherArgOrigin (JSString.ofZ n)
  | ReplFunction f => otherArgOrigin (fn_toString f)
  | ReplOther str => otherArgOrigin str
  end.

(** [args[0].toString()] *)
Definition patternToString (p : Pattern) : string :=
  match p with
  | PatString a => unstringTracify a
  | PatRegExp re => re_toString re
  end.

Definition patternMatches (p : Pattern) (s : string) : list Match :=
  match p with
  | PatString a => stringMatches s (unstringTracify a)
  | PatRegExp re => re_replaceMatches re s
  end.

Record ReplaceState : Type := {
  valueMap : ValueMap;
  inputMappedSoFar : string
}.

(** [$] followed by one or two digits or by one of [$], [`], [&], ['] . *)
Definition isDollarSpecial (c : ascii) : bool :=
  ((c =? "$") || (c =? "`") || (c =? "&") || (c =? "'"))%char.

Section Replace.

(** [new RegExp(source).exec('').length] for a source text that matches
    the empty string: one more than the number of capture groups of the
    expression, or a [SyntaxError]. *)
Variable execEmptyLength : string -> Result nat.

(** The index the native [substring] derives from an argument that is a
    text, for a subject of [len] code units: [ToInteger] of the text ([0]
    when the text denotes no number), confined to [0 .. len]. *)
Variable integerOfText : string -> nat -> nat.

Definition countGroupsInRegExp (re : Pattern) : Result nat :=
  execEmptyLength (patternToString re ++ "|").

Variable oldValue : TrackedString.
Variable pattern : Pattern.

(** [offset + k] for the value [offset] read at the last place but one of
    the arguments array: a sum for a position, a concatenation for a
    text. *)
Definition addOffset (offset : CallbackValue) (k : Z) : CharacterIndex :=
  match offset with
  | CvNumber n => IndexAt (Z.of_nat n + k)
  | _ => IndexText (textOf offset ++ JSString.ofZ k)
  end.

(** [oldString.substring(a, offset)] for the same value. *)
Definition substringTo (oldString : string) (a : nat) (offset : CallbackValue)
  : string :=
  match offset with
  | CvNumber n => JSString.substring oldString a n
  | CvUndefined => JSString.substringFrom oldString a
  | _ => JSString.substring oldString a
           (integerOfText (textOf offset) (String.length oldString))
  end.

(** The tracked form of one capture; what is no text is left as it is. *)
Definition traceSubmatch (match_ offset : CallbackValue) (submatch : CallbackValue)
  : CallbackValue :=
  match submatch with
  | CvString sub =>
      CvTraced {| ts_value := sub;
                  ts_origin :=
                    mkOrigin (Some "Replace Call Submatch") sub
                      [ITracked (ts_value oldValue) (ts_origin oldValue)]
                      [addOffset offset (JSString.indexOf (textOf match_) sub)]
                      None |}
  | _ => submatch
  end.

(** The callback of the inner [value.replace(/\$([0-9]{1,2}|[$`&'])/g, _)];
    what it returns is spliced in as a text. *)
Definition dollarReplacement (match_ : CallbackValue)
  (submatches : list CallbackValue) (dollarSubmatch : string) : Result string :=
  match NilEmpty.uint_of_string dollarSubmatch with
  | Some digits =>
      let submatchIndex := Nat.of_uint digits in
      let submatch :=
        match submatchIndex with
        | O => CvUndefined
        | S k => arrayAt submatches k
        end in
      match submatch with
      | CvUndefined =>
          maxSubmatchIndex <- countGroupsInRegExp pattern ;;
          if (submatchIndex <? maxSubmatchIndex)%nat then Ok EmptyString
          else Ok ("$" ++ dollarSubmatch)
      | _ => Ok (textOf submatch)
      end
  | None =>
      if dollarSubmatch =? "&" then Ok (textOf match_)
      else Throw "not handled!!"
  end.

(** The inner replace itself: every [$n], [$nn], [$$], [$`], [$&], [$']
    of [value] is handed to [dollarReplacement], from left to right. *)
Fixpoint expandDollars (m : CallbackValue) (submatches : list CallbackValue)
  (value : string) : Result string :=
  match value with
  | EmptyString => Ok EmptyString
  | String c rest =>
      if (c =? "$")%char then
        match rest with
        | String d1 rest1 =>
            if isDigit d1 then
              match rest1 with
              | String d2 rest2 =>
                  if isDigit d2 then
                    r <- dollarReplacement m submatches
                           (String d1 (String d2 EmptyString)) ;;
                    t <- expandDollars m submatches rest2 ;;
                    Ok (r ++ t)
                  else
                    r <- dollarReplacement m submatches (String d1 EmptyString) ;;
                    t <- expandDollars m submatches rest1 ;;
                    Ok (r ++ t)
              | EmptyString =>
                  dollarReplacement m submatches (String d1 EmptyString)
              end
            else if isDollarSpecial d1 then
              r <- dollarReplacement m submatches (String d1 EmptyString) ;;
              t <- expandDollars m submatches rest1 ;;
              Ok (r ++ t)
            else
              t <- expandDollars m submatches rest ;;
              Ok (String c t)
        | EmptyString => Ok (String c EmptyString)
        end
      else
        t <- expandDollars m submatches rest ;;
        Ok (String c t)
  end.

Variable replacement : Replacement.

(** [inputValues[2]] *)
Definition inputValues2 : InputValue := replacementOrigin replacement.

(** [replaceWith]: its value and its origin, for the values [match],
    [submatches], [offset] and [string] of the callback. *)
Definition replaceWith (match_ : CallbackValue) (submatches : list CallbackValue)
  (offset string_ : CallbackValue) : Result (string * InputValue) :=
  match replacement with
  | ReplString a =>
      value <- expandDollars match_ submatches (unstringTracify a) ;;
      Ok (value, inputValues2)
  | ReplNumber n =>
      value <- expandDollars match_ submatches (JSString.ofZ n) ;;
      Ok (value, inputValues2)
  | ReplFunction f =>
      let newArgsArray := (match_ :: submatches ++ [offset; string_])%list in
      result <- fn_apply f newArgsArray ;;
      let untracked str :=
        Ok (str, IOrigin (mkOrigin (Some "Untracked replace match result")
                            str [] [] None)) in
      match result with
      | CbUndefined => untracked "undefined"
      | CbNull => untracked "null"
      | CbUntracked str => untracked str
      | CbTraced t => Ok (ts_value t, IOrigin (ts_origin t))
      end
  | ReplOther _ => Throw "not handled"
  end.

(** The function handed to the native [replace], called for the match
    [m].  It takes [offset] and [string] from the end of the arguments
    array: they are the position and the subject unless a [groups] object
    comes last, in which case they are the subject and that object, and
    the position ends up among the submatches. *)
Definition replaceCallback (m : Match) (st : ReplaceState)
  : Result (string * ReplaceState) :=
  let oldString := ts_value oldValue in
  let argumentsArray := callbackArguments oldString m in
  let match_ := arrayAt argumentsArray 0 in
  let submatches :=
    arraySlice argumentsArray 1 (List.length argumentsArray - 2) in
  let offset := arrayAt argumentsArray (List.length argumentsArray - 2) in
  let string_ := arrayAt argumentsArray (List.length argumentsArray - 1) in
  let submatches := map (traceSubmatch match_ offset) submatches in
  let inputBeforeToKeep :=
    substringTo oldString (String.length (inputMappedSoFar st)) offset in
  let valueMap1 :=
    appendString (valueMap st) inputBeforeToKeep (IOrigin (ts_origin oldValue))
      (Z.of_nat (String.length (inputMappedSoFar st))) in
  let inputMappedSoFar1 := inputMappedSoFar st ++ inputBeforeToKeep in
  rw <- replaceWith match_ submatches offset string_ ;;
  let valueMap2 := appendString valueMap1 (fst rw) (snd rw) 0 in
  Ok (fst rw,
      {| valueMap := valueMap2;
         inputMappedSoFar := inputMappedSoFar1 ++ textOf match_ |}).

(** [handlerFunction] for [propertyName === "replace"]: the output and
    the value map built for it. *)
Definition replaceTracked : Result (string * ValueMap) :=
  let oldString := ts_value oldValue in
  r <- replaceWithFunction oldString (patternMatches pattern oldString)
         replaceCallback
         {| valueMap := newValueMap; inputMappedSoFar := EmptyString |} ;;
  let mapped := inputMappedSoFar (snd r) in
  Ok (fst r,
      appendString (valueMap (snd r))
        (JSString.substringFrom oldString (String.length mapped))
        (IOrigin (ts_origin oldValue))
        (Z.of_nat (String.length mapped))).

Definition replaceInputValues : list InputValue :=
  [IOrigin (ts_origin oldValue); patternOrigin pattern; inputValues2].

Definition handler_replace : Result JSValue :=
  r <- replaceTracked ;;
  let valueItems := serialize (snd r) replaceInputValues in
  traceResult "replace" (fst r) (Some valueItems) replaceInputValues.

End Replace.

(** A replacement text has a [$] reference when a [$] is followed by a
    digit or by one of [$], [`], [&], [']. *)
Fixpoint hasDollarReference (s : string) : bool :=
  match s with
  | EmptyString => false
  | String c rest =>
      ((c =? "$")%char
       && match rest with
          | String d _ => isDigit d || isDollarSpecial d
          | EmptyString => false
          end)
      || hasDollarReference rest
  end.

(** The origin of a tracked string records the string's value. *)
Definition Coherent (t : TrackedString) : Prop :=
  o_value (ts_origin t) = ts_value t.


(** The native engine reports the matches of a regular expression in
    order; those of a string pattern are in order by construction. *)
Definition PatternOrdered (p : Pattern) (s : string) : Prop :=
  match p with
  | PatString _ => True
  | PatRegExp re =>
      matchesOrdered (String.length s) 0 (re_replaceMatches re s) = true
  end.

(** The engine passes the callback no [groups] object: the pattern is a
    string or an expression without named capture groups. *)
Definition WithoutGroups (p : Pattern) (s : string) : Prop :=
  match p with
  | PatString _ => True
  | PatRegExp re =>
      forallb (fun m => match m_groups m with
                        | None => true
                        | Some _ => false
                        end) (re_replaceMatches re s) = true
  end.


(** *** slice, substr *)

(** [handlerFunction] for [propertyName === "slice"] and integer
    indices; [to = None] when the call has one argument. *)
Definition sliceTracked (oldValue : TrackedString) (from : Z) (to : option Z)
  : string * ValueMap :=
  let oldString := ts_value oldValue in
  let to1 :=
    match to with
    | Some t => if (t <? 0)%Z then Some (Z.of_nat (String.length oldString) + t)%Z
                else Some t
    | None => None
    end in
  let newVal := JSString.slice oldString from to1 in
  (newVal,
   appendString newValueMap newVal (IOrigin (ts_origin oldValue)) from).

Definition numberArgOrigins (a : Z) (b : option Z) : list InputValue :=
  otherArgOrigin (JSString.ofZ a)
  :: match b with
     | Some n => [otherArgOrigin (JSString.ofZ n)]
     | None => []
     end.

Definition handler_slice (oldValue : TrackedString) (from : Z) (to : option Z)
  : Result JSValue :=
  let inputValues := IOrigin (ts_origin oldValue) :: numberArgOrigins from to in
  let r := sliceTracked oldValue from to in
  traceResult "slice" (fst r) (Some (serialize (snd r) inputValues)) inputValues.

(** [handlerFunction] for [propertyName === "substr"], an integer start
    index and an integer length; [length = None] when the call has one
    argument. *)
Definition substrTracked (oldValue : TrackedString) (start : Z) (length : option Z)
  : string * ValueMap :=
  let oldString := ts_value oldValue in
  let start1 :=
    if (start <? 0)%Z then (Z.of_nat (String.length oldString) + start)%Z
    else start in
  let length1 :=
    match length with
    | Some l => l
    | None => (Z.of_nat (String.length oldString) - start1)%Z
    end in
  let newVal := JSString.substr oldString start1 (Some length1) in
  (newVal,
   appendString newValueMap newVal (IOrigin (ts_origin oldValue)) start1).

Definition handler_substr (oldValue : TrackedString) (start : Z)
  (length : option Z) : Result JSValue :=
  let inputValues := IOrigin (ts_origin oldValue) :: numberArgOrigins start length in
  let r := substrTracked oldValue start length in
  traceResult "substr" (fst r) (Some (serialize (snd r) inputValues)) inputValues.

(** *** split *)

(** The separator: a string, a regular expression, or anything else,
    given by its string form ([None] for [undefined]). *)
Inductive Separator : Type :=
| SepString (a : StringArg)
| SepRegExp (re : RegExp)
| SepOther (str : option string).

Definition separatorOrigin (sep : Separator) : InputValue :=
  match sep with
  | SepString a => stringArgOrigin a
  | SepRegExp re => otherArgOrigin (re_toString re)
  | SepOther (Some str) => otherArgOrigin str
  | SepOther None => otherArgOrigin "undefined"
  end.

(** The native [oldString.split(args[0])]. *)
Definition nativeSplit (oldString : string) (sep : Separator)
  : list (option string) :=
  match sep with
  | SepString a => map Some (JSString.split oldString (unstringTracify a))
  | SepRegExp re => re_split re oldString
  | SepOther (Some str) => map Some (JSString.split oldString str)
  | SepOther None => [Some oldString]
  end.

(** The array [separators]; [None] is the [null] that [match] returns
    when the expression matches nowhere. *)
Definition splitSeparators (oldString : string) (sep : Separator)
  (res : list (option string)) : option (list string) :=
  match sep with
  | SepString a => Some (repeat (unstringTracify a) (List.length res - 1))
  | SepRegExp re => re_matchGlobal re oldString
  | SepOther _ => Some []
  end.

(** The body of [res.forEach]: [i] is the index of the first fragment of
    [res] and [currentCharIndex] the offset reached so far.  Reading
    [str.length] of [undefined] throws, and so does reading
    [separators[i]] of [null]. *)
Fixpoint splitFragments (inputValues : list InputValue)
  (separators : option (list string)) (res : list (option string)) (i : nat)
  (currentCharIndex : nat) : Result (list JSValue) :=
  match res with
  | [] => Ok []
  | None :: _ => Throw "TypeError"
  | Some str :: res' =>
      let inputValuesCharacterIndex := [IndexAt (Z.of_nat currentCharIndex)] in
      let currentCharIndex1 := currentCharIndex + String.length str in
      match separators with
      | None => Throw "TypeError"
      | Some seps =>
          let currentCharIndex2 :=
            match nth_error seps i with
            | Some (String c sep') => currentCharIndex1 + String.length (String c sep')
            | _ => currentCharIndex1
            end in
          t <- makeTraceObject
                 {| opt_value := VString str;
                    opt_origin :=
                      Some (mkOrigin (Some "Split Call") str inputValues
                              inputValuesCharacterIndex None) |} ;;
          ts <- splitFragments inputValues separators res' (S i) currentCharIndex2 ;;
          Ok (t :: ts)
      end
  end.

(** An element of the array the native [split] returns, as a value. *)
Definition fragmentValue (fragment : option string) : JSValue :=
  match fragment with
  | Some str => VString str
  | None => VUndefined
  end.

(** The end of [handlerFunction] for an array result: plain strings are
    traced, anything else is returned as it is. *)
Fixpoint traceArray (propertyName : string) (inputValues : list InputValue)
  (newVal : list JSValue) : Result (list JSValue) :=
  match newVal with
  | [] => Ok []
  | val :: rest =>
      t <- match val with
           | VString s =>
               makeTraceObject
                 {| opt_value := val;
                    opt_origin :=
                      Some (mkOrigin
                              (Some (capitalizeFirstCharacter propertyName ++ " Call"))
                              s inputValues [] None) |}
           | _ => Ok val
           end ;;
      ts <- traceArray propertyName inputValues rest ;;
      Ok (t :: ts)
  end.

(** [handlerFunction] for [propertyName === "split"]; [limit = None]
    when the call has no second argument, an integer otherwise. *)
Definition handler_split (oldValue : TrackedString) (separator : Separator)
  (limit : option Z) : Result (list JSValue) :=
  let oldString := ts_value oldValue in
  let inputValues :=
    IOrigin (ts_origin oldValue) :: separatorOrigin separator
    :: match limit with
       | Some n => [otherArgOrigin (JSString.ofZ n)]
       | None => []
       end in
  newVal <-
    match limit with
    | Some _ =>
        Ok (map fragmentValue (splitLimit (nativeSplit oldString separator) limit))
    | None =>
        let res := nativeSplit oldString separator in
        let separators := splitSeparators oldString separator res in
        splitFragments inputValues separators res 0 0
    end ;;
  traceArray "split" inputValues newVal.

(** *** The tracked calls that build a value map *)

Inductive Call : Type :=
| CallReplace (pattern : Pattern) (replacement : Replacement)
| CallSlice (from : Z) (to : option Z)
| CallSubstr (start : Z) (length : option Z).

(** [handlerFunction], by property name. *)
Definition handlerFunction (execEmptyLength : string -> Result nat)
  (integerOfText : string -> nat -> nat)
  (this : TrackedString) (c : Call) : Result JSValue :=
  match c with
  | CallReplace pattern replacement =>
      handler_replace execEmptyLength integerOfText this pattern replacement
  | CallSlice from to => handler_slice this from to
  | CallSubstr start length => handler_substr this start length
  end.

(** The matches the native engine reports for a call are in order. *)
Definition CallOrdered (this : TrackedString) (c : Call) : Prop :=
  match c with
  | CallReplace pattern _ => PatternOrdered pattern (ts_value this)
  | _ => True
  end.

(** The engine passes the callback of a [replace] call no [groups]
    object. *)
Definition CallWithoutGroups (this : TrackedString) (c : Call) : Prop :=
  match c with
  | CallReplace pattern _ => WithoutGroups pattern (ts_value this)
  | _ => True
  end.

(** *** The pieces of a replace output *)

(** A piece of output: its text, the origin it is attributed to and the
    offset recorded for it. *)
Definition Piece : Type := string * InputValue * Z.

Definition pieceSegment (p : Piece) : Segment :=
  let '(text, o, k) := p in mkSegment o k (String.length text).

Definition pieceTexts (ps : list Piece) : string :=
  fold_right (fun p acc => fst (fst p) ++ acc) "" ps.

(** A piece is an unchanged span of the subject, recorded at its start,
    or a replacement, recorded at offset 0. *)
Definition GoodPiece (execEmptyLength : string -> Result nat)
  (oldValue : TrackedString) (pattern : Pattern) (replacement : Replacement)
  (p : Piece) : Prop :=
  let '(text, o, k) := p in
  (o = IOrigin (ts_origin oldValue)
   /\ exists a b, (a <= b \/ String.length (ts_value oldValue) <= b)
                  /\ k = Z.of_nat a
                  /\ text = JSString.substring (ts_value oldValue) a b)
  \/ (k = 0%Z
      /\ exists match_ submatches offset string_,
           replaceWith execEmptyLength pattern replacement
             match_ submatches offset string_
           = Ok (text, o)).

(** The offsets at which fragments start when laid out one after the
    other from [start] with [sepLength] code units in between. *)
Fixpoint fragmentOffsets (sepLength start : nat) (fragments : list string)
  : list nat :=
  match fragments with
  | [] => []
  | f :: rest =>
      start :: fragmentOffsets sepLength (start + String.length f + sepLength) rest
  end.

(** The tracked fragment [split] builds for [str] at offset [k]. *)
Definition splitFragment (inputValues : list InputValue) (str : string) (k : nat)
  : JSValue :=
  VTracked (VString str)
    (mkOrigin (Some "Split Call") str inputValues [IndexAt (Z.of_nat k)] None).

(** *** Inputs of the scenarios *)

Definition tracked (s : string) (origin : Origin) : TrackedString :=
  {| ts_value := s; ts_origin := origin |}.

(** A root origin for a string. *)
Definition rootOrigin (s : string) : Origin := mkOrigin None s [] [] None.

(** An expression source without capture group. *)
Definition noGroups : string -> Result nat := fun _ => Ok 1.

(** [integerOfText] on texts that denote no number: [NaN], hence 0. *)
Definition notNumeric : string -> nat -> nat := fun _ _ => 0.

End Handlers.
Import Handlers.

(** ** The tracing switch *)

Module Tracing.

(** What a patchable slot holds: the native function (or property
    descriptor) it had when the page loaded, a tracing wrapper that
    closes over what it calls through to, or a tracing function that
    stands in for the native one without calling it. *)
Inductive Impl : Type :=
| NativeImpl (name : string)
| Wrapper (name : string) (wrapped : Impl)
| Substitute (name : string).

(** The slots [enableTracing] writes to. *)
Record Env : Type := {
  document_createElement : Impl;
  Node_appendChild : Impl;
  Element_setAttribute : Impl;
  Element_removeAttribute : Impl;
  Element_className : Impl;
  JSON_parse : Impl;
  Element_innerHTML : Impl;
  localStorage_getItem : Impl;
  RegExp_exec : Impl;
  window_Function : Impl
}.

(** The variables the module sets when it is loaded; each is also stored
    under the same name on [window]. *)
Record Saved : Type := {
  originalCreateElement : Impl;
  appendChildPropertyDescriptor : Impl;
  nativeSetAttribute : Impl;
  nativeClassNameDescriptor : Impl;
  nativeInnerHTMLDescriptor : Impl;
  nativeExec : Impl;
  nativeFunction : Impl;
  nativeJSONParse : Impl;
  nativeLocalStorageGetItem : Impl
}.

Record State : Type := {
  env : Env;
  saved : Saved;
  tracingEnabled : bool
}.

(** Loading the module. *)
Definition load (e : Env) : State := {|
  env := e;
  saved := {|
    originalCreateElement := document_createElement e;
    appendChildPropertyDescriptor := Node_appendChild e;
    nativeSetAttribute := Element_setAttribute e;
    nativeClassNameDescriptor := Element_className e;
    nativeInnerHTMLDescriptor := Element_innerHTML e;
    nativeExec := RegExp_exec e;
    nativeFunction := window_Function e;
    nativeJSONParse := JSON_parse e;
    nativeLocalStorageGetItem := localStorage_getItem e
  |};
  tracingEnabled := false
|}.

Definition enableTracing (st : State) : State :=
  if tracingEnabled st then st
  else
    let s := saved st in
    let nativeRemoveAttribute := Element_removeAttribute (env st) in
    {| env := {|
         document_createElement := Wrapper "createElement" (originalCreateElement s);
         Node_appendChild := Wrapper "appendChild" (appendChildPropertyDescriptor s);
         Element_setAttribute := Wrapper "setAttribute" (nativeSetAttribute s);
         Element_removeAttribute := Wrapper "removeAttribute" nativeRemoveAttribute;
         Element_className := Wrapper "className" (nativeClassNameDescriptor s);
         JSON_parse := Wrapper "JSON.parse" (nativeJSONParse s);
         Element_innerHTML := Wrapper "innerHTML" (nativeInnerHTMLDescriptor s);
         localStorage_getItem := Wrapper "localStorage.getItem" (nativeLocalStorageGetItem s);
         RegExp_exec := Wrapper "exec" (nativeExec s);
         window_Function := Substitute "Function"
       |};
       saved := s;
       tracingEnabled := true |}.

Definition disableTracing (st : State) : State :=
  if negb (tracingEnabled st) then st
  else
    let s := saved st in
    let e := env st in
    {| env := {|
         document_createElement := originalCreateElement s;
         Node_appendChild := appendChildPropertyDescriptor s;
         Element_setAttribute := nativeSetAttribute s;
         Element_removeAttribute := Element_removeAttribute e;
         Element_className := nativeClassNameDescriptor s;
         JSON_parse := nativeJSONParse s;
         Element_innerHTML := nativeInnerHTMLDescriptor s;
         localStorage_getItem := nativeLocalStorageGetItem s;
         RegExp_exec := nativeExec s;
         window_Function := nativeFunction s
       |};
       saved := s;
       tracingEnabled := false |}.

(** Nesting depth of wrappers. *)
Fixpoint depth (i : Impl) : nat :=
  match i with
  | NativeImpl _ => 0
  | Wrapper _ w => S (depth w)
  | Substitute _ => 1
  end.

(** A page as the browser provides it. *)
Definition nativeEnv : Env := {|
  document_createElement := NativeImpl "createElement";
  Node_appendChild := NativeImpl "appendChild";
  Element_setAttribute := NativeImpl "setAttribute";
  Element_removeAttribute := NativeImpl "removeAttribute";
  Element_className := NativeImpl "className";
  JSON_parse := NativeImpl "JSON.parse";
  Element_innerHTML := NativeImpl "innerHTML";
  localStorage_getItem := NativeImpl "localStorage.getItem";
  RegExp_exec := NativeImpl "exec";
  window_Function := NativeImpl "Function"
|}.

End Tracing.

(** ** The backend endpoints [/traverse] and [/loadLog] *)

Module Backend.

(** Modelled from the spec: [src/traverse.ts] is not part of the sources
    at hand.  A trace step names a record and a character index in its
    value (section 3). *)
Record Step : Type := { operationLog : nat; charIndex : nat }.

(** The JSON body of a response. *)
Inductive Body : Type :=
| BodyErr (err : string)
| BodySteps (steps : option (list Step))
| BodyLog (log : option string).

(** An HTTP response under construction: [res.end] finishes it, and a
    finished response ignores further calls. *)
Record Response : Type := {
  statusCode : nat;
  body : option Body;
  finished : bool
}.

Definition newResponse : Response :=
  {| statusCode := 200; body := None; finished := false |}.

Definition res_status (code : nat) (res : Response) : Response :=
  if finished res then res
  else {| statusCode := code; body := body res; finished := false |}.

Definition res_end (b : Body) (res : Response) : Response :=
  if finished res then res
  else {| statusCode := statusCode res; body := Some b; finished := true |}.

(** How the awaited [traverse(...)] call ends: it resolves with the
    steps, or it rejects; [partial] are the steps it had pushed to its
    accumulator by then. *)
Inductive TraverseEnd : Type :=
| Resolved (steps : list Step)
| Rejected (partial : list Step) (err : string).

(** [finishRequest]: after the [catch] block the function goes on to the
    final [res.end], with [steps] still [undefined]. *)
Definition finishRequest (t : TraverseEnd) (res : Response) : Response :=
  match t with
  | Resolved steps => res_end (BodySteps (Some steps)) res
  | Rejected _ _ =>
      let res1 := res_end (BodyErr "Log not found in backend") (res_status 500 res) in
      res_end (BodySteps None) res1
  end.

(** The steps a response carries, if any. *)
Definition responseSteps (res : Response) : option (list Step) :=
  match body res with
  | Some (BodySteps (Some steps)) => Some steps
  | _ => None
  end.

(** The error marker of a response, if any. *)
Definition responseErr (res : Response) : option string :=
  match body res with
  | Some (BodyErr err) => Some err
  | _ => None
  end.

(** What the [/traverse] handler does, in order. *)
Inductive Event : Type :=
| HasLog (attempt : nat)
| SetTimeout (ms : nat)
| FinishRequest
| Respond (res : Response).

Definition timeout : nat := 250.

(** [tryTraverse(previousAttempts)]; [hasLog k] is what the existence
    check of the store answers at attempt [k].  The function calls itself
    again only while [timeout * previousAttempts <= 2000]; [fuel] counts
    the calls still allowed and [None] means it ran out. *)
Fixpoint tryTraverseFrom (fuel : nat) (hasLog : nat -> bool)
  (previousAttempts : nat) : option (list Event) :=
  if hasLog previousAttempts then Some [HasLog previousAttempts; FinishRequest]
  else
    let timeElapsed := timeout * previousAttempts in
    if (2000 <? timeElapsed)%nat then
      Some [HasLog previousAttempts;
            Respond (res_end
                       (BodyErr "Log not found - might still be saving data")
                       (res_status 500 newResponse))]
    else
      match fuel with
      | O => None
      | S fuel' =>
          option_map
            (fun rest => HasLog previousAttempts :: SetTimeout timeout :: rest)
            (tryTraverseFrom fuel' hasLog (previousAttempts + 1))
      end.

(** The call [tryTraverse()] of the handler: 2000 / 250 + 1 further calls
    are all it can make. *)
Definition tryTraverse (hasLog : nat -> bool) : option (list Event) :=
  tryTraverseFrom (2000 / timeout + 1) hasLog 0.

Definition countChecks (l : list Event) : nat :=
  List.length (filter (fun e => match e with HasLog _ => true | _ => false end) l).

Definition totalWait (l : list Event) : nat :=
  fold_right (fun e acc => match e with SetTimeout ms => ms + acc | _ => acc end) 0 l.

(** The last event, the way the request ends. *)
Definition lastEvent (l : list Event) : option Event := List.last (map Some l) None.

(** Modelled from the spec: the store ([LevelDBLogServer]) is not part of
    the sources at hand.  [get(id)] is a point lookup that yields the record
    or nothing (section 4.3). *)
Definition Store : Type := nat -> option string.

(** What the [/loadLog] handler does, in order. *)
Inductive LoadEvent : Type :=
| LoadSetTimeout (ms : nat)
| LoadLog (id : nat)
| LoadRespond (res : Response).

Definition loadLogHandler (store : Store) (id : nat) : list LoadEvent :=
  [LoadSetTimeout 500; LoadLog id;
   LoadRespond (res_end (BodyLog (store id)) newResponse)].

(** The answer to a request whose record never showed up. *)
Definition timedOutResponse : Response :=
  {| statusCode := 500;
     body := Some (BodyErr "Log not found - might still be saving data");
     finished := true |}.

Definition step0 : Step := {| operationLog := 1; charIndex := 0 |}.

End Backend.

(** ** Further notions for the handlers *)

Module HandlerResults.

(** An element of the native result as [split] returns it: a tracked
    string whose origin records the fragment itself, the action and the
    inputs of the call, or [undefined] itself. *)
Definition splitResult (inputValues : list InputValue) (fragment : option string)
  (v : JSValue) : Prop :=
  match fragment with
  | Some str =>
      exists o, v = VTracked (VString str) o
                /\ o_value o = str
                /\ o_action o = Some "Split Call"
                /\ o_inputValues o = inputValues
  | None => v = VUndefined
  end.

End HandlerResults.
Import HandlerResults.

(** ** The [match] branch of the handler *)

Module MatchCall.

(** The matcher of a regular expression: [matcher s i] is the end index
    of the match of the expression that starts at index [i] of [s], if
    there is one. *)
Definition Matcher : Type := string -> nat -> option nat.

(** The search of the native [exec]: the start indices [i], [i + 1], ...
    are tried in turn, [steps] of them after [i]. *)
Fixpoint searchFrom (matcher : Matcher) (s : string) (steps : nat) (i : nat)
  : option (nat * nat) :=
  match matcher s i with
  | Some e => Some (i, e)
  | None =>
      match steps with
      | O => None
      | S k => searchFrom matcher s k (S i)
      end
  end.

(** [regExp.exec(s)] for a global expression whose [lastIndex] is
    [lastIndex]: the start and end of the match found, if any, and the
    new [lastIndex]. *)
Definition exec (matcher : Matcher) (s : string) (lastIndex : nat)
  : option (nat * nat) * nat :=
  if (String.length s <? lastIndex)%nat then (None, 0)
  else
    match searchFrom matcher s (String.length s - lastIndex) lastIndex with
    | Some (i, e) => (Some (i, e), e)
    | None => (None, 0)
    end.

(** The loop [while (match = regExp.exec(this)) matches.push(match[0])]
    and what follows it: the array of matched texts, or [null] ([None])
    when it is empty, together with the [lastIndex] the expression is
    left with.  [fuel] bounds the number of [exec] calls; the outer
    [None] means they were not enough. *)
Fixpoint matchLoop (fuel : nat) (matcher : Matcher) (s : string)
  (lastIndex : nat) (matches : list string)
  : option (option (list string) * nat) :=
  match fuel with
  | O => None
  | S fuel' =>
      match exec matcher s lastIndex with
      | (Some (i, e), lastIndex') =>
          matchLoop fuel' matcher s lastIndex'
            (matches ++ [JSString.substring s i e])
      | (None, lastIndex') =>
          Some (match matches with
                | [] => None
                | _ => Some matches
                end, lastIndex')
      end
  end.

(** [handlerFunction] for [propertyName === "match"] and a global
    expression. *)
Definition handler_match_global (fuel : nat) (matcher : Matcher)
  (this : TrackedString) (lastIndex : nat)
  : option (option (list string) * nat) :=
  matchLoop fuel matcher (ts_value this) lastIndex [].

(** A matched text of [s] that starts at or after [from]. *)
Definition MatchedText (matcher : Matcher) (s : string) (from : nat)
  (text : string) : Prop :=
  exists i e, from <= i /\ matcher s i = Some e
              /\ text = JSString.substring s i e.

(** The expression [/lit/g] for a text [lit]. *)
Definition literalMatcher (lit : string) : Matcher :=
  fun s i =>
    if String.prefix lit (String.substring i (String.length s - i) s)
       && (i + String.length lit <=? String.length s)%nat
    then Some (i + String.length lit) else None.

End MatchCall.
Import MatchCall.

(** ** Repeated use of the tracing switch *)

Module TracingCycles.
Import Tracing.

(** [enableTracing(); disableTracing()], [n] times over. *)
Fixpoint cycles (n : nat) (st : State) : State :=
  match n with
  | O => st
  | S k => cycles k (disableTracing (enableTracing st))
  end.

(** [n] tracing wrappers around [i], the innermost first. *)
Fixpoint wrapped (n : nat) (name : string) (i : Impl) : Impl :=
  match n with
  | O => i
  | S k => wrapped k name (Wrapper name i)
  end.

End TracingCycles.

(** ** The backend endpoint [/inspect] *)

Module Inspect.

(** What the handlers read of a request: the [authorization] and
    [referer] headers ([None] when absent) and [body.logId]. *)
Record Request : Type := {
  authorization : option string;
  referer : option string;
  logId : option nat
}.

(** The session: the access token and the port of the backend. *)
Record Config : Type := { accessToken : string; bePort : nat }.

(** The variables the handlers share. *)
Record State : Type := {
  logToInspect : option nat;
  isInspectingDemoApp : bool
}.

(** The state [setupUI] starts with. *)
Definition initialState : State :=
  {| logToInspect := None; isInspectingDemoApp := true |}.

(** [app.verifyToken(req)]: throws unless the [authorization] header is
    the access token. *)
Definition verifyToken (cfg : Config) (req : Request) : Result unit :=
  match authorization req with
  | Some a =>
      if a =? accessToken cfg then Ok tt
      else Throw ("Token invalid: " ++ a ++ " should be " ++ accessToken cfg)
  | None =>
      Throw ("Token invalid: undefined should be " ++ accessToken cfg)
  end.

(** [ref.includes(needle)] *)
Definition includes (ref needle : string) : bool :=
  match String.index 0 needle ref with
  | Some _ => true
  | None => false
  end.

(** The value [setIsInspectingDemoApp(req)] gives the flag. *)
Definition demoAppReferer (cfg : Config) (req : Request) : bool :=
  match referer req with
  | Some ref =>
      includes ref ("http://localhost:" ++ JSString.ofNat (bePort cfg) ++ "/start/")
  | None => false
  end.

(** A WebSocket client and whether its [readyState] is [OPEN]. *)
Record Client : Type := { clientId : nat; isOpen : bool }.

Inductive Message : Type :=
| InspectOperationLog (operationLogId : option nat) (isInspectingDemoApp : bool).

(** [broadcast(wss, data)]: the clients the data is sent to. *)
Definition broadcast (clients : list Client) (data : Message)
  : list (nat * Message) :=
  map (fun c => (clientId c, data)) (filter isOpen clients).

(** The headers [allowCrossOrigin(res)] sets. *)
Definition allowCrossOrigin : list (string * string) :=
  [("Access-Control-Allow-Origin", "*");
   ("Access-Control-Allow-Headers",
    "Content-Type, Access-Control-Allow-Headers, Authorization, X-Requested-With")].

(** How a handler ends: with the headers it has set by then, it throws,
    or it answers with a body and broadcasts. *)
Inductive Outcome : Type :=
| Thrown (headers : list (string * string)) (exn : string)
| Answered (headers : list (string * string)) (body : string)
    (sent : list (nat * Message)).

(** [app.post("/inspect", ...)]: the state it leaves and how it ends. *)
Definition postInspect (cfg : Config) (clients : list Client) (st : State)
  (req : Request) : State * Outcome :=
  match verifyToken cfg req with
  | Throw exn => (st, Thrown allowCrossOrigin exn)
  | Ok _ =>
      let st1 := {| logToInspect := logId req;
                    isInspectingDemoApp := isInspectingDemoApp st |} in
      let st2 := {| logToInspect := logToInspect st1;
                    isInspectingDemoApp := demoAppReferer cfg req |} in
      (st2,
       Answered allowCrossOrigin "{}"
         (broadcast clients
            (InspectOperationLog (logToInspect st2)
               (isInspectingDemoApp st2))))
  end.

(** [app.get("/inspect", ...)]: the body of the answer. *)
Definition getInspect (st : State) : option nat * bool :=
  (logToInspect st, isInspectingDemoApp st).

(** The state after a series of POST requests to [/inspect]. *)
Definition afterPosts (cfg : Config) (clients : list Client) (st : State)
  (reqs : list Request) : State :=
  fold_left (fun st req => fst (postInspect cfg clients st req)) reqs st.

(** The request carries the access token. *)
Definition authorized (cfg : Config) (req : Request) : bool :=
  match authorization req with
  | Some a => a =? accessToken cfg
  | None => false
  end.

(** The last request of a series that carries the access token. *)
Definition lastAuthorized (cfg : Config) (reqs : list Request) : option Request :=
  List.last (map Some (filter (authorized cfg) reqs)) None.

End Inspect.

(** * Properties *)

Unset Implicit Arguments.

(** ** Native string operations on examples *)

Example substring_ex : JSString.substring "hello world" 6 11 = "world".
Proof. reflexivity. Qed.

Example slice_ex : JSString.slice "hello world" (-5) None = "world".
Proof. reflexivity. Qed.

Example substr_ex : JSString.substr "hello world" (-5) (Some 2%Z) = "wo".
Proof. reflexivity. Qed.

Example split_ex : JSString.split "a,b,,c," "," = ["a"; "b"; ""; "c"; ""].
Proof. reflexivity. Qed.

Example split_ex2 : JSString.split "abab" "ab" = [""; ""; ""].
Proof. reflexivity. Qed.

Example split_ex3 : JSString.split "" "," = [""].
Proof. reflexivity. Qed.

Example ofNat_ex : JSString.ofNat 0 = "0" /\ JSString.ofNat 12 = "12".
Proof. split; reflexivity. Qed.

Example parseFloat_ex :
  map parseFloat_isNaN ["0"; "12"; " -3x"; ".5"; "Infinity"; "length"; ""; "."; "-"; "x1"]
  = [false; false; false; false; false; true; true; true; true; true].
Proof. reflexivity. Qed.

Example arrayIndex_ex :
  map arrayIndex ["0"; "12"; "01"; "1.5"; "-1"; ""; "1abc"]
  = [Some 0; Some 12; None; None; None; None; None].
Proof. reflexivity. Qed.

(** ** Strings *)

Lemma append_length (a b : string) :
  String.length (a ++ b) = String.length a + String.length b.
Proof. induction a as [|c a IH]; simpl; [reflexivity | now rewrite IH]. Qed.

Lemma append_assoc (a b c : string) : (a ++ b) ++ c = a ++ (b ++ c).
Proof. induction a as [|x a IH]; simpl; [reflexivity | now rewrite IH]. Qed.

Lemma append_empty_r (a : string) : a ++ "" = a.
Proof. induction a as [|x a IH]; simpl; [reflexivity | now rewrite IH]. Qed.

Lemma substring_length (s : string) : forall n m,
  String.length (String.substring n m s) = Nat.min m (String.length s - n).
Proof.
  induction s as [|c s IH]; intros n m.
  - destruct n, m; reflexivity.
  - destruct n as [|n].
    + destruct m as [|m]; simpl; [reflexivity | now rewrite IH, Nat.sub_0_r].
    + simpl. apply IH.
Qed.

Lemma substring_zero_length (s : string) : forall n, String.substring n 0 s = "".
Proof.
  induction s as [|c s IH]; intros [|n]; simpl; auto.
Qed.

(** ** Tracked strings *)

Lemma unwrapValue_not_tracked (v w : JSValue) :
  unwrapValue v = Ok w -> isStringTraceString w = false.
Proof.
  induction v; simpl; intros H; try discriminate;
    try (injection H as <-; reflexivity).
  now apply IHv.
Qed.

Lemma unwrapValue_wraps (v : JSValue) (s : string) :
  Wraps v s -> unwrapValue v = Ok (VString s).
Proof. induction 1; simpl; auto. Qed.

Lemma makeTraceObject_string (s : string) (o : Origin) :
  makeTraceObject {| opt_value := VString s; opt_origin := Some o |}
  = Ok (VTracked (VString s) o).
Proof. reflexivity. Qed.

(** The tracked strings the handlers work on are the ones
    [makeTraceObject] builds. *)
Lemma traced_is_constructed (t : TrackedString) :
  makeTraceObject {| opt_value := VString (ts_value t);
                     opt_origin := Some (ts_origin t) |}
  = Ok (traced t).
Proof. reflexivity. Qed.

(** C8.  A tracked-string object never holds a tracked string: the
    constructor stores what is left once every tracked wrapper of the
    input is removed, which for a (possibly repeatedly wrapped) string
    is the innermost plain string; [makeTraceObject] hands back a value
    that is not a plain string unchanged and otherwise builds a tracked
    string around the plain string itself. *)
Theorem tracked_string_holds_plain_string :
  (forall v o obj, FromJSString v o = Ok obj ->
     isStringTraceString (value obj) = false)
  /\ (forall v o s, Wraps v s ->
        FromJSString v o = Ok {| value := VString s; origin := o |})
  /\ (forall options r, makeTraceObject options = Ok r ->
        (r = opt_value options /\ typeOf r <> "string")
        \/ (exists s o, opt_value options = VString s
                        /\ r = VTracked (VString s) o)).
Proof.
  split; [|split].
  - intros v o obj. unfold FromJSString.
    destruct (unwrapValue v) as [w|] eqn:E; simpl; [|discriminate].
    intros H. injection H as <-. simpl. eapply unwrapValue_not_tracked, E.
  - intros v o s W. unfold FromJSString.
    now rewrite (unwrapValue_wraps _ _ W).
  - intros [v oo] r. unfold makeTraceObject. simpl.
    destruct v; simpl; intros H;
      try (injection H as <-; left; split; [reflexivity | discriminate]).
    destruct oo as [o|]; [|discriminate].
    injection H as <-. right. eauto.
Qed.

Lemma tracked_string_holds_plain_string_witness :
  FromJSString
    (VTracked (VTracked (VString "abc") (untrackedArgument "abc"))
       (untrackedArgument "abc"))
    (untrackedArgument "abc")
  = Ok {| value := VString "abc"; origin := untrackedArgument "abc" |}.
Proof.
  apply (proj1 (proj2 tracked_string_holds_plain_string)).
  apply Wraps_tracked, Wraps_tracked, Wraps_plain.
Defined.

Lemma to_uint_not_Nil (n : nat) : Nat.to_uint n <> Decimal.Nil.
Proof.
  intros E. pose proof (Unsigned.of_to n) as H. rewrite E in H.
  simpl in H. subst n. discriminate E.
Qed.

Lemma parseFloat_ofNat (i : nat) : parseFloat_isNaN (JSString.ofNat i) = false.
Proof.
  unfold JSString.ofNat.
  destruct (Nat.to_uint i) eqn:E; [now apply to_uint_not_Nil in E | ..];
    reflexivity.
Qed.

Lemma arrayIndex_ofNat (i : nat) : arrayIndex (JSString.ofNat i) = Some i.
Proof.
  unfold arrayIndex. unfold JSString.ofNat at 1.
  rewrite NilEmpty.usu, Unsigned.of_to.
  now rewrite String.eqb_refl.
Qed.

(** C10.  For a tracked string around the plain string [s], [toString],
    [valueOf] and [toJSON] return [s], [length] is the length of [s],
    and reading index [i] through the proxy returns the character of [s]
    at [i] ([undefined] past the end). *)
Theorem accessors_return_plain_value (s : string) (o : Origin) :
  let this := {| value := VString s; origin := o |} in
  makeTraceObject {| opt_value := VString s; opt_origin := Some o |}
    = Ok (VTracked (value this) (origin this))
  /\ toString this = VString s
  /\ valueOf this = VString s
  /\ toJSON this = VString s
  /\ get_length this = Ok (VNumber (Z.of_nat (String.length s)))
  /\ proxy_get this (KName "length")
       = Ok (PValue (VNumber (Z.of_nat (String.length s))))
  /\ forall i,
       proxy_get this (KName (JSString.ofNat i))
       = Ok (PValue match String.get i s with
                    | Some c => VString (String c "")
                    | None => VUndefined
                    end).
Proof.
  simpl. repeat split.
  intros i. unfold proxy_get.
  rewrite parseFloat_ofNat. simpl. rewrite arrayIndex_ofNat.
  now destruct (String.get i s).
Qed.

Example proxy_index_ex :
  proxy_get {| value := VString "abc"; origin := untrackedArgument "abc" |} (KName "1")
  = Ok (PValue (VString "b")).
Proof. reflexivity. Qed.

(** ** The tracing switch *)

Import Tracing.

Lemma enableTracing_when_enabled (st : State) :
  tracingEnabled st = true -> enableTracing st = st.
Proof. unfold enableTracing. now intros ->. Qed.

Lemma disableTracing_when_disabled (st : State) :
  tracingEnabled st = false -> disableTracing st = st.
Proof. unfold disableTracing. now intros ->. Qed.

Lemma wrapper_differs (n : string) (i : Impl) : Wrapper n i <> i.
Proof. intros E. apply (f_equal depth) in E. simpl in E. lia. Qed.

(** Every slot that [disableTracing] writes is back to what it held when
    the module was loaded. *)
Lemma disableTracing_restores_written_slots (e : Env) :
  let e' := env (disableTracing (enableTracing (load e))) in
  document_createElement e' = document_createElement e
  /\ Node_appendChild e' = Node_appendChild e
  /\ Element_setAttribute e' = Element_setAttribute e
  /\ Element_className e' = Element_className e
  /\ JSON_parse e' = JSON_parse e
  /\ Element_innerHTML e' = Element_innerHTML e
  /\ localStorage_getItem e' = localStorage_getItem e
  /\ RegExp_exec e' = RegExp_exec e
  /\ window_Function e' = window_Function e.
Proof. simpl. repeat split. Qed.

(** C9.  [enableTracing] does nothing when tracing is enabled, and
    [disableTracing] puts back nine of the ten slots; [removeAttribute]
    is not among them: after [enableTracing] and [disableTracing] it
    still holds the tracing wrapper, not its original value. *)
Theorem removeAttribute_stays_patched (e : Env) :
  let st := disableTracing (enableTracing (load e)) in
  enableTracing (enableTracing (load e)) = enableTracing (load e)
  /\ tracingEnabled st = false
  /\ Element_removeAttribute (env st)
     = Wrapper "removeAttribute" (Element_removeAttribute e)
  /\ Element_removeAttribute (env st) <> Element_removeAttribute e.
Proof.
  simpl. repeat split. apply wrapper_differs.
Qed.

(** A second round of enabling wraps the wrapper that was left behind. *)
Example removeAttribute_wrapped_twice :
  Element_removeAttribute
    (env (enableTracing (disableTracing (enableTracing (load nativeEnv)))))
  = Wrapper "removeAttribute"
      (Wrapper "removeAttribute" (NativeImpl "removeAttribute")).
Proof. reflexivity. Qed.

(** ** The backend *)

Import Backend.

Lemma tryTraverseFrom_ext (h1 h2 : nat -> bool) :
  (forall k, h1 k = h2 k) ->
  forall fuel p, tryTraverseFrom fuel h1 p = tryTraverseFrom fuel h2 p.
Proof.
  intros E. induction fuel as [|fuel IH]; intros p; cbn [tryTraverseFrom];
    rewrite E; [reflexivity | now rewrite IH].
Qed.

(** The calls never run out: from attempt [p] on, [9 - p] further calls
    are enough. *)
Lemma tryTraverseFrom_returns (hasLog : nat -> bool) :
  forall fuel p, 9 - p <= fuel ->
    exists events, tryTraverseFrom fuel hasLog p = Some events.
Proof.
  induction fuel as [|fuel IH]; intros p Hp; cbn [tryTraverseFrom];
    (destruct (hasLog p); [eexists; reflexivity|]);
    (destruct (2000 <? timeout * p)%nat eqn:T; [eexists; reflexivity|]);
    apply Nat.ltb_ge in T; unfold timeout in T.
  - lia.
  - destruct (IH (p + 1)) as [events ->]; [lia|]. simpl. eauto.
Qed.

(** More calls allowed than needed change nothing. *)
Lemma tryTraverseFrom_more_fuel (hasLog : nat -> bool) :
  forall fuel p events,
    tryTraverseFrom fuel hasLog p = Some events ->
    forall extra, tryTraverseFrom (fuel + extra) hasLog p = Some events.
Proof.
  induction fuel as [|fuel IH]; intros p events H extra.
  - destruct extra; cbn [Nat.add tryTraverseFrom] in *;
      destruct (hasLog p); try assumption;
      destruct (2000 <? timeout * p)%nat; try assumption; discriminate.
  - cbn [Nat.add tryTraverseFrom] in *.
    destruct (hasLog p); [exact H|].
    destruct (2000 <? timeout * p)%nat; [exact H|].
    destruct (tryTraverseFrom fuel hasLog (p + 1)) as [rest|] eqn:E;
      [|discriminate].
    now rewrite (IH _ _ E extra).
Qed.

Lemma tryTraverse_returns (hasLog : nat -> bool) :
  exists events, tryTraverse hasLog = Some events.
Proof. apply tryTraverseFrom_returns. simpl. lia. Qed.

(** C6.  When the existence check never finds the record, the
    [/traverse] handler checks ten times, 250 ms apart, and then, 2250 ms
    (more than the 2000 ms allowed) having passed, answers with status
    500 and an error body; it never reaches [finishRequest].  The
    [/loadLog] handler reads the store once and answers with what it
    got, nothing for an absent id. *)
Theorem traverse_polls_then_fails (hasLog : nat -> bool) :
  (forall k, hasLog k = false) ->
  exists events,
    tryTraverse hasLog = Some events
    /\ events = (flat_map (fun k => [HasLog k; SetTimeout 250]) (seq 0 9)
                 ++ [HasLog 9; Respond timedOutResponse])%list
    /\ countChecks events = 10
    /\ totalWait events = 2250
    /\ ~ In FinishRequest events
    /\ forall (store : Store) (id : nat), store id = None ->
         loadLogHandler store id
         = [LoadSetTimeout 500; LoadLog id;
            LoadRespond {| statusCode := 200; body := Some (BodyLog None);
                           finished := true |}].
Proof.
  intros H. eexists. split.
  - unfold tryTraverse.
    rewrite (tryTraverseFrom_ext hasLog (fun _ => false) H). reflexivity.
  - repeat split.
    + simpl. intros F. repeat (destruct F as [F|F]; [discriminate F|]). exact F.
    + intros store id A. unfold loadLogHandler. now rewrite A.
Qed.

Lemma traverse_polls_then_fails_witness :
  exists events,
    tryTraverse (fun _ => false) = Some events /\ countChecks events = 10.
Proof.
  destruct (traverse_polls_then_fails (fun _ => false) (fun _ => eq_refl))
    as (events & H1 & _ & H2 & _).
  exists events. split; assumption.
Defined.

(** A record that shows up in time is traversed. *)
Example traverse_found_at_third_check :
  tryTraverse (fun k => 2 <=? k)%nat
  = Some [HasLog 0; SetTimeout 250; HasLog 1; SetTimeout 250; HasLog 2;
          FinishRequest].
Proof. reflexivity. Qed.

(** The response to a traversal that broke off after one step carries no
    steps. *)
Lemma rejected_response_has_no_steps :
  ~ (responseSteps (finishRequest (Rejected [step0] "missing record") newResponse)
       = Some [step0]
     /\ responseErr (finishRequest (Rejected [step0] "missing record") newResponse)
          <> None).
Proof. intros [H _]. discriminate H. Qed.

(** C7, as the code has it.  A traversal that breaks off is answered with
    status 500 and the error marker alone, whatever steps had been
    resolved by then; a traversal that resolves is answered with its
    steps and no error marker.  The two responses always differ. *)
Theorem rejected_traversal_reports_error_only
  (partial steps : list Step) (err : string) :
  let failed := finishRequest (Rejected partial err) newResponse in
  let done := finishRequest (Resolved steps) newResponse in
  failed = {| statusCode := 500;
              body := Some (BodyErr "Log not found in backend");
              finished := true |}
  /\ responseSteps failed = None
  /\ responseErr failed = Some "Log not found in backend"
  /\ done = {| statusCode := 200; body := Some (BodySteps (Some steps));
               finished := true |}
  /\ responseErr done = None
  /\ failed <> done.
Proof. simpl. repeat split. discriminate. Qed.

(** ** Value maps *)

Lemma totalLength_app (l1 l2 : list Segment) :
  totalLength (l1 ++ l2) = totalLength l1 + totalLength l2.
Proof.
  unfold totalLength. induction l1 as [|x l1 IH]; simpl; [reflexivity|].
  rewrite IH. lia.
Qed.

Lemma totalLength_appendString (m : ValueMap) str o k :
  totalLength (items (appendString m str o k))
  = totalLength (items m) + String.length str.
Proof. unfold appendString. simpl. rewrite totalLength_app. simpl. lia. Qed.

Lemma reconstruct_app (l1 l2 : list Segment) :
  reconstruct (l1 ++ l2) = reconstruct l1 ++ reconstruct l2.
Proof.
  unfold reconstruct. induction l1 as [|x l1 IH]; simpl; [reflexivity|].
  now rewrite IH, append_assoc.
Qed.

Lemma reconstruct_appendString (m : ValueMap) str o k :
  reconstruct (items (appendString m str o k))
  = reconstruct (items m)
    ++ String.substring (Z.to_nat k) (String.length str) (inputValue_value o).
Proof.
  unfold appendString. simpl. rewrite reconstruct_app. simpl.
  unfold sourceText. simpl. now rewrite append_empty_r.
Qed.

(** Laid out one after the other, segments tile the range they span. *)
Lemma outputRanges_tile (l : list Segment) :
  forall a, Tiles a (outputRanges a l) (a + totalLength l).
Proof.
  induction l as [|x l IH]; intros a; simpl.
  - rewrite Nat.add_0_r. constructor.
  - constructor; [lia|].
    replace (a + (seg_length x + totalLength l))
      with (a + seg_length x + totalLength l) by lia.
    apply IH.
Qed.

Lemma partitions_of_totalLength (l : list Segment) (out : string) :
  totalLength l = String.length out -> Partitions l out.
Proof.
  intros E. split; [|exact E]. rewrite <- E. apply (outputRanges_tile l 0).
Qed.

(** ** Native substring and search *)

Lemma js_substring_ordered (s : string) (a b : nat) :
  a <= b -> b <= String.length s ->
  JSString.substring s a b = String.substring a (b - a) s.
Proof.
  intros H1 H2. unfold JSString.substring.
  rewrite (Nat.min_l a), (Nat.min_l b) by lia.
  now rewrite Nat.min_l, Nat.max_r by lia.
Qed.

Lemma js_substring_length (s : string) (a b : nat) :
  a <= b -> b <= String.length s ->
  String.length (JSString.substring s a b) = b - a.
Proof.
  intros H1 H2. rewrite js_substring_ordered by assumption.
  rewrite substring_length. lia.
Qed.


Lemma substring_all (s : string) : String.substring 0 (String.length s) s = s.
Proof. induction s as [|c s IH]; simpl; [reflexivity | now rewrite IH]. Qed.

Lemma index_le (p s : string) : forall n i,
  String.index n p s = Some i -> i <= String.length s.
Proof.
  induction s as [|c s IH]; intros n i; simpl.
  - destruct n; [|discriminate]. destruct p; [|discriminate].
    intros H. injection H as <-. lia.
  - destruct n as [|n].
    + match goal with |- (if ?b then _ else _) = _ -> _ => destruct b end.
      * intros H. injection H as <-. lia.
      * destruct (String.index 0 p s) as [k|] eqn:E; [|discriminate].
        intros H. injection H as <-. apply IH in E. lia.
    + destruct (String.index n p s) as [k|] eqn:E; [|discriminate].
      intros H. injection H as <-. apply IH in E. lia.
Qed.

Lemma stringMatches_ordered (s p : string) :
  matchesOrdered (String.length s) 0 (stringMatches s p) = true.
Proof.
  unfold stringMatches. destruct (String.index 0 p s) as [i|] eqn:E; simpl;
    [|reflexivity].
  apply index_le in E. rewrite andb_true_r. now apply Nat.leb_le.
Qed.

Lemma patternMatches_ordered (p : Pattern) (s : string) :
  PatternOrdered p s ->
  matchesOrdered (String.length s) 0 (patternMatches p s) = true.
Proof.
  destruct p as [a|re]; simpl; [intros _; apply stringMatches_ordered | auto].
Qed.

(** ** replace: what the callback reads from its arguments *)

(** With the position and the subject last in the array, the callback
    reads them as [offset] and [string], and the captures in between as
    the submatches. *)
Lemma arguments_read (x : CallbackValue) (xs : list CallbackValue)
  (a b : CallbackValue) :
  let array := (x :: xs ++ [a; b])%list in
  arrayAt array 0 = x
  /\ arraySlice array 1 (List.length array - 2) = xs
  /\ arrayAt array (List.length array - 2) = a
  /\ arrayAt array (List.length array - 1) = b.
Proof.
  cbv zeta. cbn [List.length]. rewrite length_app. cbn [List.length].
  replace (S (List.length xs + 2) - 2) with (S (List.length xs)) by lia.
  replace (S (List.length xs + 2) - 1) with (S (S (List.length xs))) by lia.
  unfold arrayAt, arraySlice. cbn [nth skipn].
  replace (S (List.length xs) - 1) with (List.length xs + 0) by lia.
  rewrite firstn_app_2. cbn [firstn]. rewrite app_nil_r.
  rewrite !app_nth2 by lia.
  rewrite Nat.sub_diag.
  replace (S (List.length xs) - List.length xs) with 1 by lia.
  auto.
Qed.

Lemma callbackArguments_without_groups (s : string) (m : Match) :
  m_groups m = None ->
  callbackArguments s m
  = (CvString (m_match m)
     :: map captureValue (m_submatches m)
     ++ [CvNumber (m_offset m); CvString s])%list.
Proof.
  intros H. unfold callbackArguments. rewrite H.
  now rewrite app_nil_r.
Qed.

Lemma forallb_without_groups (ms : list Match) :
  forallb (fun m => match m_groups m with
                    | None => true
                    | Some _ => false
                    end) ms = true ->
  Forall (fun m => m_groups m = None) ms.
Proof.
  intros H. apply Forall_forall. intros m Hin.
  rewrite forallb_forall in H. specialize (H m Hin).
  now destruct (m_groups m).
Qed.

Lemma patternMatches_without_groups (p : Pattern) (s : string) :
  WithoutGroups p s ->
  Forall (fun m => m_groups m = None) (patternMatches p s).
Proof.
  destruct p as [a|re]; simpl.
  - intros _. unfold stringMatches.
    destruct (String.index 0 (unstringTracify a) s); repeat constructor.
  - apply forallb_without_groups.
Qed.

(** The callback when no [groups] object is passed: [offset] is the
    position of the match. *)
Lemma replaceCallback_without_groups execEmptyLength integerOfText oldValue
  pattern replacement (m : Match) (st : ReplaceState) :
  m_groups m = None ->
  replaceCallback execEmptyLength integerOfText oldValue pattern replacement m st
  = (let oldString := ts_value oldValue in
     let before :=
       JSString.substring oldString (String.length (inputMappedSoFar st))
         (m_offset m) in
     rw <- replaceWith execEmptyLength pattern replacement
             (CvString (m_match m))
             (map (traceSubmatch oldValue (CvString (m_match m))
                     (CvNumber (m_offset m)))
                (map captureValue (m_submatches m)))
             (CvNumber (m_offset m)) (CvString oldString) ;;
     Ok (fst rw,
         {| valueMap :=
              appendString
                (appendString (valueMap st) before (IOrigin (ts_origin oldValue))
                   (Z.of_nat (String.length (inputMappedSoFar st))))
                (fst rw) (snd rw) 0;
            inputMappedSoFar := (inputMappedSoFar st ++ before) ++ m_match m |})).
Proof.
  intros Hg. unfold replaceCallback. cbv zeta.
  rewrite (callbackArguments_without_groups (ts_value oldValue) m Hg).
  destruct (arguments_read (CvString (m_match m))
              (map captureValue (m_submatches m))
              (CvNumber (m_offset m)) (CvString (ts_value oldValue)))
    as (E0 & E1 & E2 & E3).
  cbv zeta in E0, E1, E2, E3. rewrite E0, E1, E2, E3.
  reflexivity.
Qed.

(** ** replace: the pieces a value map is built from *)

Section ReplacePieces.

Variable execEmptyLength : string -> Result nat.
Variable integerOfText : string -> nat -> nat.
Variable oldValue : TrackedString.
Variable pattern : Pattern.
Variable replacement : Replacement.

Let oldString := ts_value oldValue.
Let callback :=
  replaceCallback execEmptyLength integerOfText oldValue pattern replacement.

Let Good := GoodPiece execEmptyLength oldValue pattern replacement.

Lemma pieceTexts_app (p1 p2 : list Piece) :
  pieceTexts (p1 ++ p2) = pieceTexts p1 ++ pieceTexts p2.
Proof.
  unfold pieceTexts. induction p1 as [|x p1 IH]; simpl; [reflexivity|].
  now rewrite IH, append_assoc.
Qed.

Lemma totalLength_pieces (ps : list Piece) :
  totalLength (map pieceSegment ps) = String.length (pieceTexts ps).
Proof.
  induction ps as [|[[text o] k] ps IH]; [reflexivity|].
  change (totalLength (map pieceSegment ((text, o, k) :: ps)))
    with (String.length text + totalLength (map pieceSegment ps)).
  rewrite IH. simpl. now rewrite append_length.
Qed.

Lemma replaceCallback_inv (m : Match) (st : ReplaceState) (r : string * ReplaceState) :
  m_groups m = None ->
  callback m st = Ok r ->
  let before :=
    JSString.substring oldString (String.length (inputMappedSoFar st)) (m_offset m) in
  exists o,
    (exists match_ submatches offset string_,
        replaceWith execEmptyLength pattern replacement
          match_ submatches offset string_ = Ok (fst r, o))
    /\ items (valueMap (snd r))
       = (items (valueMap st)
            ++ [pieceSegment (before, IOrigin (ts_origin oldValue),
                              Z.of_nat (String.length (inputMappedSoFar st)));
                pieceSegment (fst r, o, 0%Z)])%list
    /\ inputMappedSoFar (snd r) = (inputMappedSoFar st ++ before) ++ m_match m.
Proof.
  intros Hg. unfold callback.
  rewrite (replaceCallback_without_groups _ _ _ _ _ m st Hg). cbv zeta.
  fold oldString.
  destruct (replaceWith _ _ _ _ _ _ _) as [[v o]|e] eqn:E; simpl; [|discriminate].
  intros H. injection H as <-. simpl. exists o.
  split; [eauto|]. split; [|reflexivity].
  now rewrite <- app_assoc.
Qed.

Lemma replaceLoop_pieces (ms : list Match) :
  forall next acc st r ps,
    Forall (fun m => m_groups m = None) ms ->
    matchesOrdered (String.length oldString) next ms = true ->
    String.length (inputMappedSoFar st) = next ->
    items (valueMap st) = map pieceSegment ps ->
    acc = pieceTexts ps ->
    Forall Good ps ->
    replaceLoop oldString callback ms next acc st = Ok r ->
    exists ps',
      items (valueMap (snd r)) = map pieceSegment ps'
      /\ fst r
         = pieceTexts ps'
           ++ JSString.substringFrom oldString
                (String.length (inputMappedSoFar (snd r)))
      /\ Forall Good ps'.
Proof.
  induction ms as [|m ms IH];
    intros next acc st r ps Hgroups Hord Hlen Hitems Hacc Hgood.
  - simpl. intros H. injection H as <-. simpl. exists ps.
    rewrite Hlen, Hacc. auto.
  - inversion Hgroups as [|m' ms' Hg Hgs]; subst m' ms'.
    simpl in Hord. apply andb_prop in Hord as [Hm Hord].
    apply andb_prop in Hm as [Hlo Hhi].
    apply Nat.leb_le in Hlo, Hhi.
    simpl. destruct (callback m st) as [r1|e] eqn:Ecb; simpl; [|discriminate].
    destruct (replaceCallback_inv _ _ _ Hg Ecb) as (o & Hrw & Hit & Hmap).
    rewrite (proj2 (Nat.leb_le _ _) Hlo).
    set (before := JSString.substring oldString next (m_offset m)).
    rewrite Hlen in Hit, Hmap. fold before in Hit, Hmap.
    apply (IH _ _ _ r
             (ps ++ [(before, IOrigin (ts_origin oldValue), Z.of_nat next);
                     (fst r1, o, 0%Z)])%list).
    + exact Hgs.
    + exact Hord.
    + rewrite Hmap, !append_length. unfold before.
      rewrite js_substring_length by assumption. lia.
    + rewrite Hit, Hitems, map_app. reflexivity.
    + rewrite pieceTexts_app, Hacc. simpl. now rewrite append_empty_r.
    + apply Forall_app. split; [exact Hgood|].
      constructor; [|constructor; [|constructor]].
      * left. split; [reflexivity|]. exists next, (m_offset m). auto.
      * right. split; [reflexivity|]. exact Hrw.
Qed.

(** What [replaceTracked] returns, in pieces. *)
Lemma replaceTracked_pieces (newVal : string) (vm : ValueMap) :
  WithoutGroups pattern oldString ->
  PatternOrdered pattern oldString ->
  replaceTracked execEmptyLength integerOfText oldValue pattern replacement
  = Ok (newVal, vm) ->
  exists ps,
    items vm = map pieceSegment ps
    /\ newVal = pieceTexts ps
    /\ Forall Good ps.
Proof.
  intros Hgroups Hord. unfold replaceTracked, replaceWithFunction.
  fold oldString callback.
  destruct (replaceLoop _ _ _ _ _ _) as [r|e] eqn:E; simpl; [|discriminate].
  intros H. injection H as <- <-.
  eapply (replaceLoop_pieces _ _ _ _ _ []) in E;
    [| now apply patternMatches_without_groups
     | now apply patternMatches_ordered | reflexivity | reflexivity
     | reflexivity | constructor].
  destruct E as (ps & Hit & Hout & Hgood).
  set (a := String.length (inputMappedSoFar (snd r))) in *.
  exists (ps ++ [(JSString.substringFrom oldString a,
                  IOrigin (ts_origin oldValue), Z.of_nat a)])%list.
  split; [|split].
  - unfold appendString. simpl. rewrite Hit, map_app. reflexivity.
  - rewrite pieceTexts_app, Hout. simpl. now rewrite append_empty_r.
  - apply Forall_app. split; [exact Hgood|]. constructor; [|constructor].
    left. split; [reflexivity|]. exists a, (String.length oldString).
    unfold JSString.substringFrom. auto.
Qed.

End ReplacePieces.

(** ** replace, slice, substr: the value map and the output *)

Lemma handler_replace_inv execEmptyLength integerOfText oldValue pattern
  replacement r :
  handler_replace execEmptyLength integerOfText oldValue pattern replacement
  = Ok r ->
  exists newVal vm,
    replaceTracked execEmptyLength integerOfText oldValue pattern replacement
    = Ok (newVal, vm)
    /\ r = VTracked (VString newVal)
             (mkOrigin (Some "Replace Call") newVal
                (replaceInputValues oldValue pattern replacement) []
                (Some (items vm))).
Proof.
  unfold handler_replace.
  destruct (replaceTracked _ _ _ _ _) as [[newVal vm]|e]; simpl; [|discriminate].
  intros H. injection H as <-. eauto.
Qed.

(** C1 does not hold of the code.  For an expression with a named
    capture group the engine passes the callback of the native [replace]
    a [groups] object after the subject, so the handler, which takes
    [offset] from the last place but one, reads the subject where it
    expects the position.  On the tracked string ["bb"] the call
    [replace(/(?<x>b)/g, "0")] returns ["00"], of length 2, with a value
    map of five segments of lengths 0, 1, 1, 1 and 0: their lengths add
    up to 3. *)
Theorem replace_named_group_breaks_partition
  (execEmptyLength : string -> Result nat)
  (integerOfText : string -> nat -> nat) (origin : Origin) :
  integerOfText "bb" 2 = 0 ->
  let segments :=
    [mkSegment (IOrigin origin) 0 0;
     mkSegment (IOrigin (untrackedArgument "0")) 0 1;
     mkSegment (IOrigin origin) 1 1;
     mkSegment (IOrigin (untrackedArgument "0")) 0 1;
     mkSegment (IOrigin origin) 3 0] in
  handler_replace execEmptyLength integerOfText (tracked "bb" origin)
    (PatRegExp (namedGroupRegExp "x" "b")) (ReplString (Plain "0"))
  = Ok (VTracked (VString "00")
          (mkOrigin (Some "Replace Call") "00"
             [IOrigin origin; otherArgOrigin "/(?<x>b)/g";
              IOrigin (untrackedArgument "0")] []
             (Some segments)))
  /\ totalLength segments = 3
  /\ String.length "00" = 2.
Proof.
  intros H segments. split; [|split].
  - unfold handler_replace, replaceTracked, replaceWithFunction.
    cbn. rewrite H. reflexivity.
  - reflexivity.
  - reflexivity.
Qed.

Lemma replace_named_group_breaks_partition_witness :
  handler_replace noGroups notNumeric (tracked "bb" (rootOrigin "bb"))
    (PatRegExp (namedGroupRegExp "x" "b")) (ReplString (Plain "0"))
  = Ok (VTracked (VString "00")
          (mkOrigin (Some "Replace Call") "00"
             [IOrigin (rootOrigin "bb"); otherArgOrigin "/(?<x>b)/g";
              IOrigin (untrackedArgument "0")] []
             (Some [mkSegment (IOrigin (rootOrigin "bb")) 0 0;
                    mkSegment (IOrigin (untrackedArgument "0")) 0 1;
                    mkSegment (IOrigin (rootOrigin "bb")) 1 1;
                    mkSegment (IOrigin (untrackedArgument "0")) 0 1;
                    mkSegment (IOrigin (rootOrigin "bb")) 3 0]))).
Proof.
  apply (replace_named_group_breaks_partition noGroups notNumeric
           (rootOrigin "bb")).
  reflexivity.
Defined.

(** When the engine passes the callback no [groups] object (the pattern
    is a string or an expression without named capture groups) and
    reports the matches in order, a tracked [replace], [slice] or
    [substr] call that returns yields a tracked string whose origin
    records the output and a value map, and the lengths of the segments
    of that map add up to the length of the output. *)
Theorem value_map_lengths_add_up
  (execEmptyLength : string -> Result nat)
  (integerOfText : string -> nat -> nat) (this : TrackedString)
  (c : Call) (r : JSValue) :
  CallWithoutGroups this c ->
  CallOrdered this c ->
  handlerFunction execEmptyLength integerOfText this c = Ok r ->
  exists newVal origin segments,
    r = VTracked (VString newVal) origin
    /\ o_value origin = newVal
    /\ o_valueItems origin = Some segments
    /\ totalLength segments = String.length newVal.
Proof.
  destruct c as [pattern replacement | from to | start len]; simpl;
    intros Hgroups Hord H.
  - apply handler_replace_inv in H as (newVal & vm & Hrt & ->).
    apply replaceTracked_pieces in Hrt as (ps & Hit & Hout & _);
      [|exact Hgroups|exact Hord].
    do 3 eexists. split; [reflexivity|]. simpl. repeat split.
    rewrite Hit, Hout. apply totalLength_pieces.
  - injection H as <-. do 3 eexists. repeat split. simpl. lia.
  - injection H as <-. do 3 eexists. repeat split. simpl. lia.
Qed.

Lemma value_map_lengths_add_up_witness :
  exists newVal origin segments,
    VTracked (VString "f0o")
      (mkOrigin (Some "Replace Call") "f0o"
         [IOrigin (rootOrigin "foo"); otherArgOrigin "/o/";
          IOrigin (untrackedArgument "0")] []
         (Some [mkSegment (IOrigin (rootOrigin "foo")) 0 1;
                mkSegment (IOrigin (untrackedArgument "0")) 0 1;
                mkSegment (IOrigin (rootOrigin "foo")) 2 1]))
    = VTracked (VString newVal) origin
    /\ o_value origin = newVal
    /\ o_valueItems origin = Some segments
    /\ totalLength segments = String.length newVal.
Proof.
  apply (value_map_lengths_add_up noGroups notNumeric
           (tracked "foo" (rootOrigin "foo"))
           (CallReplace (PatRegExp (literalRegExp "o" false))
              (ReplString (Plain "0")))).
  - reflexivity.
  - reflexivity.
  - reflexivity.
Defined.

(** The slice and substr calls always return. *)
Lemma slice_substr_return (this : TrackedString) (a : Z) (b : option Z) :
  (exists r, handler_slice this a b = Ok r)
  /\ (exists r, handler_substr this a b = Ok r).
Proof. split; eexists; reflexivity. Qed.

(** ** replace: reconstruction from the sources *)

Lemma expandDollars_literal execEmptyLength pattern m subs (v : string) :
  hasDollarReference v = false ->
  expandDollars execEmptyLength pattern m subs v = Ok v.
Proof.
  induction v as [|c rest IH]; [reflexivity|].
  cbn [hasDollarReference]. intros H.
  apply orb_false_elim in H as [Hc Hrest]. specialize (IH Hrest).
  cbn [expandDollars]. destruct (c =? "$")%char.
  - destruct rest as [|d1 rest1]; [reflexivity|].
    simpl in Hc. apply orb_false_elim in Hc as [-> ->].
    rewrite IH. reflexivity.
  - rewrite IH. reflexivity.
Qed.








(** With a named capture group the output is not rebuilt either: for
    [replace(/(?<x>b)/g, "0")] on ["abc"] the segments point at [""],
    ["0"] and ["bc"]. *)
Example replace_named_group_reconstruction :
  exists origin segments,
    handler_replace noGroups notNumeric (tracked "abc" (rootOrigin "abc"))
      (PatRegExp (namedGroupRegExp "x" "b")) (ReplString (Plain "0"))
    = Ok (VTracked (VString "a0c") origin)
    /\ o_valueItems origin = Some segments
    /\ reconstruct segments = "0bc".
Proof. do 2 eexists. repeat split. Qed.



(** ** replace: the scenario *)

(** The output of the scenario is not ["f00"]. *)
Lemma replace_foo_output_is_not_f00 :
  ~ exists origin,
      handler_replace noGroups notNumeric (tracked "foo" (rootOrigin "foo"))
        (PatString (Plain "o")) (ReplString (Plain "0"))
      = Ok (VTracked (VString "f00") origin).
Proof. intros [origin H]. discriminate H. Qed.

(** C3, as the code has it.  [replace] with the string pattern ["o"]
    replaces the first occurrence only: on the tracked string ["foo"]
    with the literal replacement ["0"] the output is ["f0o"], with three
    segments: the unchanged ["f"] (offset 0, length 1) of the original
    string's origin, one replacement segment (offset 0, length 1) of the
    replacement's own origin, and the unchanged ["o"] (offset 2, length 1)
    of the original string's origin. *)
Theorem replace_foo_first_occurrence
  (execEmptyLength : string -> Result nat)
  (integerOfText : string -> nat -> nat) (origin : Origin) :
  handler_replace execEmptyLength integerOfText (tracked "foo" origin)
    (PatString (Plain "o")) (ReplString (Plain "0"))
  = Ok (VTracked (VString "f0o")
          (mkOrigin (Some "Replace Call") "f0o"
             [IOrigin origin; IOrigin (untrackedArgument "o");
              IOrigin (untrackedArgument "0")] []
             (Some [mkSegment (IOrigin origin) 0 1;
                    mkSegment (IOrigin (untrackedArgument "0")) 0 1;
                    mkSegment (IOrigin origin) 2 1]))).
Proof. reflexivity. Qed.

(** With the global expression [/o/g] both occurrences are replaced. *)
Example replace_foo_global :
  replaceTracked noGroups notNumeric (tracked "foo" (rootOrigin "foo"))
    (PatRegExp {| re_toString := "/o/g";
                  re_replaceMatches := fun _ =>
                    [{| m_match := "o"; m_submatches := []; m_offset := 1;
                        m_groups := None |};
                     {| m_match := "o"; m_submatches := []; m_offset := 2;
                        m_groups := None |}];
                  re_matchGlobal := fun _ => Some ["o"; "o"];
                  re_split := fun _ => [Some "f"; Some ""; Some ""] |})
    (ReplString (Plain "0"))
  = Ok ("f00",
        {| items := [mkSegment (IOrigin (rootOrigin "foo")) 0 1;
                     mkSegment (IOrigin (untrackedArgument "0")) 0 1;
                     mkSegment (IOrigin (rootOrigin "foo")) 2 0;
                     mkSegment (IOrigin (untrackedArgument "0")) 0 1;
                     mkSegment (IOrigin (rootOrigin "foo")) 3 0] |}).
Proof. reflexivity. Qed.

(** ** slice and substr *)

(** Both calls build one segment, as long as the output; [slice] records
    it at [from] as given, [substr] at the start index it has normalized. *)
Lemma slice_one_segment (this : TrackedString) (from : Z) (to : option Z) :
  items (snd (sliceTracked this from to))
  = [mkSegment (IOrigin (ts_origin this)) from
       (String.length (fst (sliceTracked this from to)))].
Proof. reflexivity. Qed.

Lemma substr_one_segment (this : TrackedString) (start : Z) (len : option Z) :
  items (snd (substrTracked this start len))
  = [mkSegment (IOrigin (ts_origin this))
       (if (start <? 0)%Z then Z.of_nat (String.length (ts_value this)) + start
        else start)%Z
       (String.length (fst (substrTracked this start len)))].
Proof. reflexivity. Qed.

Example slice_scenario (origin : Origin) :
  sliceTracked (tracked "hello world" origin) 6 (Some 11%Z)
  = ("world", {| items := [mkSegment (IOrigin origin) 6 5] |}).
Proof. reflexivity. Qed.

Lemma substring_idem (s : string) : forall k n,
  String.substring k (String.length (String.substring k n s)) s
  = String.substring k n s.
Proof.
  induction s as [|c s IH]; intros k n.
  - destruct k, n; reflexivity.
  - destruct k as [|k]; [|apply IH].
    destruct n as [|n]; [reflexivity|]. simpl. now rewrite IH.
Qed.

(** C4.  [slice] with a negative start [from] (not below minus the
    length): the call builds one segment as long as the output, and the
    output is the text found in the original string at the normalized
    start [length + from]; but the segment is recorded at [from] as
    given, a negative offset: the start index is not normalized before
    the segment is built, as it is in [substr]. *)
Theorem slice_negative_start_not_normalized
  (this : TrackedString) (from : Z) (to : option Z) :
  (from < 0)%Z ->
  (- Z.of_nat (String.length (ts_value this)) <= from)%Z ->
  let start := (Z.of_nat (String.length (ts_value this)) + from)%Z in
  exists newVal,
    sliceTracked this from to
    = (newVal,
       {| items := [mkSegment (IOrigin (ts_origin this)) from
                      (String.length newVal)] |})
    /\ String.substring (Z.to_nat start) (String.length newVal) (ts_value this)
       = newVal
    /\ from <> start
    /\ forall length,
         items (snd (substrTracked this from length))
         = [mkSegment (IOrigin (ts_origin this)) start
              (String.length (fst (substrTracked this from length)))].
Proof.
  intros Hneg Hlow start. eexists. split; [reflexivity|].
  split; [|split].
  - unfold JSString.slice, JSString.relativeIndex.
    rewrite (proj2 (Z.ltb_lt from 0) Hneg).
    rewrite Z.max_l by lia. apply substring_idem.
  - unfold start. lia.
  - intros length. rewrite substr_one_segment.
    now rewrite (proj2 (Z.ltb_lt from 0) Hneg).
Qed.

Lemma slice_negative_start_not_normalized_witness :
  exists newVal,
    sliceTracked (tracked "hello world" (rootOrigin "hello world")) (-5) None
    = (newVal,
       {| items := [mkSegment (IOrigin (rootOrigin "hello world")) (-5)
                      (String.length newVal)] |})
    /\ String.substring 6 (String.length newVal) "hello world" = newVal
    /\ (-5 <> 6)%Z
    /\ forall length,
         items (snd (substrTracked
                       (tracked "hello world" (rootOrigin "hello world"))
                       (-5) length))
         = [mkSegment (IOrigin (rootOrigin "hello world")) 6
              (String.length
                 (fst (substrTracked
                         (tracked "hello world" (rootOrigin "hello world"))
                         (-5) length)))].
Proof.
  apply (slice_negative_start_not_normalized
           (tracked "hello world" (rootOrigin "hello world")) (-5) None).
  - reflexivity.
  - simpl. lia.
Defined.

Example slice_negative_start_ex (origin : Origin) :
  sliceTracked (tracked "hello world" origin) (-5) None
  = ("world", {| items := [mkSegment (IOrigin origin) (-5) 5] |})
  /\ substrTracked (tracked "hello world" origin) (-5) None
     = ("world", {| items := [mkSegment (IOrigin origin) 6 5] |}).
Proof. split; reflexivity. Qed.

(** An end index below minus the length is normalized twice, once by the
    handler and once by the native [slice]: the handler yields ["a"]
    where ["abc".slice(0, -5)] is empty. *)
Example slice_end_normalized_twice (origin : Origin) :
  fst (sliceTracked (tracked "abc" origin) 0 (Some (-5)%Z)) = "a"
  /\ JSString.slice "abc" 0 (Some (-5)%Z) = "".
Proof. split; reflexivity. Qed.

(** The same for the start index of [substr]. *)
Example substr_start_normalized_twice (origin : Origin) :
  substrTracked (tracked "abc" origin) (-5) (Some 2%Z)
  = ("bc", {| items := [mkSegment (IOrigin origin) (-2) 2] |})
  /\ JSString.substr "abc" (-5) (Some 2%Z) = "ab".
Proof. split; reflexivity. Qed.

(** ** split *)

Example split_scenario (origin : Origin) :
  handler_split (tracked "a,b,c" origin) (SepString (Plain ",")) None
  = Ok (map (fun p => splitFragment
                        [IOrigin origin; IOrigin (untrackedArgument ",")]
                        (fst p) (snd p))
          [("a", 0); ("b", 2); ("c", 4)]).
Proof. reflexivity. Qed.

(** C5.  [split] with a regular expression that matches nowhere in the
    tracked string: [match] with the global clone returns [null], the
    native [split] yields at least one fragment, and the handler throws
    when it reads [separators[0]]; no fragment gets an origin. *)
Theorem split_regexp_without_match_throws (this : TrackedString) (re : RegExp) :
  re_matchGlobal re (ts_value this) = None ->
  re_split re (ts_value this) <> [] ->
  handler_split this (SepRegExp re) None = Throw "TypeError".
Proof.
  intros Hnull Hres. unfold handler_split.
  cbn [nativeSplit splitSeparators]. rewrite Hnull.
  destruct (re_split re (ts_value this)) as [|[str|] res]; [contradiction| |];
    reflexivity.
Qed.

Lemma split_regexp_without_match_throws_witness :
  handler_split (tracked "abc" (rootOrigin "abc"))
    (SepRegExp (literalRegExp "," false)) None
  = Throw "TypeError".
Proof.
  apply (split_regexp_without_match_throws (tracked "abc" (rootOrigin "abc"))
           (literalRegExp "," false)).
  - reflexivity.
  - discriminate.
Defined.

(** The native call on the same input yields the one fragment. *)
Example split_regexp_without_match_native :
  nativeSplit "abc" (SepRegExp (literalRegExp "," false)) = [Some "abc"].
Proof. reflexivity. Qed.

(** With a capture group the captures are fragments too, and the indices
    recorded (0, 2, 3) are not the positions (0, 1, 2) of the fragments
    in ["a,b"]. *)
Example split_capture_group_offsets (origin : Origin) :
  handler_split (tracked "a,b" origin) (SepRegExp (literalRegExp "," true)) None
  = Ok (map (fun p => splitFragment [IOrigin origin; otherArgOrigin "/(,)/"]
                        (fst p) (snd p))
          [("a", 0); (",", 2); ("b", 3)]).
Proof. reflexivity. Qed.

(** ** split with a string separator *)

Lemma prefix_append (a s : string) :
  String.prefix a s = true -> exists t, s = a ++ t.
Proof.
  revert s. induction a as [|x a IH]; intros s.
  - intros _. now exists s.
  - destruct s as [|c s]; simpl; [discriminate|].
    destruct (ascii_dec x c) as [->|]; [|discriminate].
    intros H. destruct (IH _ H) as [t ->]. now exists t.
Qed.

Lemma splitAt_not_nil (sep s : string) : forall skip cur,
  JSString.splitAt sep s skip cur <> [].
Proof.
  induction s as [|c s IH]; intros skip cur; cbn [JSString.splitAt];
    [discriminate|].
  destruct skip; [|apply IH].
  destruct (String.prefix sep (String c s)); [discriminate | apply IH].
Qed.

Lemma concat_cons (sep x : string) (l : list string) :
  l <> [] -> String.concat sep (x :: l) = x ++ sep ++ String.concat sep l.
Proof. destruct l; [contradiction | reflexivity]. Qed.

Lemma append_eq_empty (a b : string) : a ++ b = "" -> a = "" /\ b = "".
Proof. destruct a; simpl; [auto | discriminate]. Qed.

(** Joining what [splitAt] yields gives back the text it has kept. *)
Lemma splitAt_join (x : ascii) (sep' s : string) :
  forall skip cur dropped kept,
    s = dropped ++ kept -> String.length dropped = skip ->
    String.concat (String x sep') (JSString.splitAt (String x sep') s skip cur)
    = cur ++ kept.
Proof.
  induction s as [|c s IH]; intros skip cur dropped kept Hs Hlen.
  - symmetry in Hs. apply append_eq_empty in Hs as [-> ->].
    simpl in Hlen. subst skip. simpl. now rewrite append_empty_r.
  - cbn [JSString.splitAt]. destruct skip as [|k].
    + destruct dropped; [|discriminate]. simpl in Hs. subst kept.
      destruct (String.prefix (String x sep') (String c s)) eqn:P.
      * apply prefix_append in P as [t Ht]. simpl in Ht.
        injection Ht as -> ->.
        rewrite concat_cons by apply splitAt_not_nil.
        cbn [String.length]. rewrite Nat.sub_succ, Nat.sub_0_r.
        rewrite (IH (String.length sep') "" sep' t eq_refl eq_refl).
        reflexivity.
      * rewrite (IH 0 (cur ++ String c "") "" s eq_refl eq_refl).
        now rewrite append_assoc.
    + destruct dropped as [|d dropped]; [discriminate|].
      simpl in Hs, Hlen. injection Hs as -> ->. injection Hlen as Hlen.
      now apply (IH k cur dropped kept).
Qed.

Lemma chars_join (s : string) : String.concat "" (JSString.chars s) = s.
Proof.
  induction s as [|c s IH]; [reflexivity|].
  cbn [JSString.chars]. destruct s as [|c' s]; [reflexivity|].
  rewrite concat_cons by discriminate. now rewrite IH.
Qed.

(** The fragments of a split, joined by the separator, are the subject. *)
Lemma split_join (s sep : string) :
  JSString.join sep (JSString.split s sep) = s.
Proof.
  unfold JSString.join, JSString.split. destruct sep as [|x sep'].
  - apply chars_join.
  - now apply (splitAt_join x sep' s 0 "" "" s).
Qed.

Lemma substring_after (pre t : string) (n : nat) :
  String.substring (String.length pre) n (pre ++ t) = String.substring 0 n t.
Proof. induction pre as [|c pre IH]; simpl; [reflexivity | exact IH]. Qed.

Lemma substring_head (f rest : string) :
  String.substring 0 (String.length f) (f ++ rest) = f.
Proof.
  induction f as [|c f IH]; simpl.
  - now destruct rest.
  - now rewrite IH.
Qed.

(** Fragments joined by a separator sit at their [fragmentOffsets]. *)
Lemma fragments_located (sep : string) (fragments : list string) :
  forall pre i f off,
    nth_error fragments i = Some f ->
    nth_error (fragmentOffsets (String.length sep) (String.length pre) fragments) i
    = Some off ->
    String.substring off (String.length f) (pre ++ String.concat sep fragments) = f.
Proof.
  induction fragments as [|g rest IH]; intros pre i f off Hf Hoff.
  - destruct i; discriminate.
  - destruct i as [|i]; simpl in Hf, Hoff.
    + injection Hf as ->. injection Hoff as <-.
      rewrite substring_after. destruct rest; [|apply substring_head].
      simpl. rewrite <- (append_empty_r f) at 2. apply substring_head.
    + destruct rest as [|h rest]; [destruct i; discriminate|].
      rewrite concat_cons by discriminate.
      rewrite <- !append_assoc.
      apply (IH ((pre ++ g) ++ sep) i f off Hf).
      now rewrite !append_length.
Qed.

(** The loop over the fragments records [fragmentOffsets]. *)
Lemma splitFragments_offsets inputValues (sep : string) (res : list string) :
  forall k i cur,
    i + List.length res <= S k ->
    splitFragments inputValues (Some (repeat sep k)) (map Some res) i cur
    = Ok (map (fun p => splitFragment inputValues (fst p) (snd p))
            (combine res (fragmentOffsets (String.length sep) cur res))).
Proof.
  induction res as [|str res IH]; intros k i cur Hk; [reflexivity|].
  cbn [splitFragments fragmentOffsets combine map]. simpl in Hk.
  rewrite makeTraceObject_string. cbn [bind].
  destruct res as [|str' res].
  - reflexivity.
  - simpl in Hk. rewrite nth_error_repeat by lia.
    assert (E : match sep with
                | String c sep' => cur + String.length str + String.length (String c sep')
                | "" => cur + String.length str
                end = cur + String.length str + String.length sep)
      by (destruct sep; simpl; lia).
    rewrite E. rewrite (IH k (S i)) by (simpl; lia). reflexivity.
Qed.

Lemma traceArray_tracked propertyName inputValues (l : list (string * nat)) inputs :
  traceArray propertyName inputValues
    (map (fun p => splitFragment inputs (fst p) (snd p)) l)
  = Ok (map (fun p => splitFragment inputs (fst p) (snd p)) l).
Proof.
  induction l as [|p l IH]; [reflexivity|].
  cbn [map traceArray splitFragment bind]. now rewrite IH.
Qed.

(** [split] with a string separator and no limit: every fragment of the
    native split gets an origin of its own whose character index is the
    offset at which the fragment starts in the original string, the
    fragments being laid out one after the other with the length of the
    separator skipped in between. *)
Theorem split_string_fragments_located (this : TrackedString) (a : StringArg) :
  let s := ts_value this in
  let sep := unstringTracify a in
  let inputValues := [IOrigin (ts_origin this); stringArgOrigin a] in
  let fragments := JSString.split s sep in
  let offsets := fragmentOffsets (String.length sep) 0 fragments in
  handler_split this (SepString a) None
  = Ok (map (fun p => splitFragment inputValues (fst p) (snd p))
          (combine fragments offsets))
  /\ List.length offsets = List.length fragments
  /\ forall i f off,
       nth_error fragments i = Some f -> nth_error offsets i = Some off ->
       String.substring off (String.length f) s = f.
Proof.
  intros s sep inputValues fragments offsets. split; [|split].
  - unfold handler_split. cbn [nativeSplit splitSeparators].
    fold s sep fragments. rewrite length_map.
    rewrite (splitFragments_offsets _ sep fragments) by lia.
    cbn [bind]. apply traceArray_tracked.
  - unfold offsets. generalize 0. induction fragments as [|f l IH]; intros n;
      simpl; [reflexivity | now rewrite IH].
  - intros i f off Hf Hoff.
    rewrite <- (split_join s sep) at 1. fold fragments.
    apply (fragments_located sep fragments "" i f off Hf Hoff).
Qed.

(** * Further properties of the handlers *)

(** ** replace: no match, first occurrence, [$&] *)

Lemma substringFrom_zero (s : string) : JSString.substringFrom s 0 = s.
Proof.
  unfold JSString.substringFrom.
  rewrite js_substring_ordered by lia. rewrite Nat.sub_0_r. apply substring_all.
Qed.

Lemma index_bound (p s : string) (n i : nat) :
  String.index n p s = Some i -> i + String.length p <= String.length s.
Proof.
  intros H. pose proof (index_le p s n i H) as Hle.
  apply String.index_correct1 in H. apply (f_equal String.length) in H.
  rewrite substring_length in H. lia.
Qed.

(** A string splits into the text before a span, the span and the rest. *)
Lemma substring_three (s : string) : forall i n,
  i + n <= String.length s ->
  String.substring 0 i s
  ++ String.substring i n s
  ++ String.substring (i + n) (String.length s - (i + n)) s = s.
Proof.
  induction s as [|c s IH]; intros i n H.
  - simpl in H. assert (i = 0) by lia. assert (n = 0) by lia. now subst.
  - destruct i as [|i].
    + destruct n as [|n]; simpl.
      * now rewrite substring_all.
      * simpl in H. f_equal.
        specialize (IH 0 n ltac:(lia)). simpl in IH.
        assert (E : String.substring 0 0 s = "") by (now destruct s).
        rewrite E in IH. exact IH.
    + simpl in H. simpl. f_equal. apply IH. lia.
Qed.

(** When the pattern matches nowhere, [replace] returns the original
    string with one segment that covers all of it, whatever the
    replacement is; the replacement is not looked at. *)
Theorem replace_without_match
  (execEmptyLength : string -> Result nat)
  (integerOfText : string -> nat -> nat) (this : TrackedString)
  (pattern : Pattern) (replacement : Replacement) :
  patternMatches pattern (ts_value this) = [] ->
  handler_replace execEmptyLength integerOfText this pattern replacement
  = Ok (VTracked (VString (ts_value this))
          (mkOrigin (Some "Replace Call") (ts_value this)
             (replaceInputValues this pattern replacement) []
             (Some [mkSegment (IOrigin (ts_origin this)) 0
                      (String.length (ts_value this))]))).
Proof.
  intros H. unfold handler_replace, replaceTracked, replaceWithFunction.
  rewrite H. cbn. now rewrite substringFrom_zero.
Qed.

Lemma replace_without_match_witness :
  handler_replace noGroups notNumeric (tracked "foo" (rootOrigin "foo"))
    (PatString (Plain "x")) (ReplOther "[object Object]")
  = Ok (VTracked (VString "foo")
          (mkOrigin (Some "Replace Call") "foo"
             [IOrigin (rootOrigin "foo"); IOrigin (untrackedArgument "x");
              otherArgOrigin "[object Object]"] []
             (Some [mkSegment (IOrigin (rootOrigin "foo")) 0 3]))).
Proof.
  apply (replace_without_match noGroups notNumeric (tracked "foo" (rootOrigin "foo"))
           (PatString (Plain "x")) (ReplOther "[object Object]")).
  reflexivity.
Defined.

(** What [replaceTracked] yields for a string pattern found at [i] when
    the replacement expands to [text]. *)
Lemma replaceTracked_at_first_occurrence
  (execEmptyLength : string -> Result nat)
  (integerOfText : string -> nat -> nat) (this : TrackedString)
  (a : StringArg) (replacement : Replacement) (i : nat)
  (text : string) (o : InputValue) :
  let s := ts_value this in
  let p := unstringTracify a in
  String.index 0 p s = Some i ->
  replaceWith execEmptyLength (PatString a) replacement
    (CvString p) [] (CvNumber i) (CvString s) = Ok (text, o) ->
  replaceTracked execEmptyLength integerOfText this (PatString a) replacement
  = Ok (String.substring 0 i s ++ text
        ++ String.substring (i + String.length p)
             (String.length s - (i + String.length p)) s,
        {| items :=
             [mkSegment (IOrigin (ts_origin this)) 0 i;
              mkSegment o 0 (String.length text);
              mkSegment (IOrigin (ts_origin this))
                (Z.of_nat (i + String.length p))
                (String.length s - (i + String.length p))] |}).
Proof.
  intros s p Hidx Hrw.
  pose proof (index_bound p s 0 i Hidx) as Hb.
  unfold replaceTracked, replaceWithFunction.
  cbn [patternMatches]. unfold stringMatches. fold s p. rewrite Hidx.
  cbn [replaceLoop].
  rewrite replaceCallback_without_groups by reflexivity. cbv zeta.
  cbn [m_submatches map m_offset m_match inputMappedSoFar valueMap String.length].
  fold s. rewrite Hrw. cbn [bind fst snd Nat.leb].
  fold s.
  assert (Hpre : JSString.substring s 0 i = String.substring 0 i s).
  { rewrite js_substring_ordered by lia. now rewrite Nat.sub_0_r. }
  assert (Hlen : String.length (("" ++ JSString.substring s 0 i) ++ p)
                 = i + String.length p).
  { cbn [append]. rewrite append_length, Hpre, substring_length. lia. }
  cbn [inputMappedSoFar valueMap]. rewrite Hlen.
  assert (Hrest : JSString.substringFrom s (i + String.length p)
                  = String.substring (i + String.length p)
                      (String.length s - (i + String.length p)) s).
  { unfold JSString.substringFrom. now rewrite js_substring_ordered by lia. }
  rewrite Hrest, Hpre. cbn [append Nat.add].
  f_equal. f_equal.
  - now rewrite !append_assoc.
  - unfold appendString, newValueMap. cbn [items app].
    rewrite !substring_length.
    rewrite Nat.min_id, Nat.sub_0_r, Nat.min_l by lia. reflexivity.
Qed.

(** [replace] with a string pattern first found at [i] and a replacement
    text without [$] reference: the output is the text before the
    occurrence, the replacement, and the text after the occurrence, with
    one segment for each; later occurrences are left alone. *)
Theorem replace_first_occurrence
  (execEmptyLength : string -> Result nat)
  (integerOfText : string -> nat -> nat) (this : TrackedString)
  (a b : StringArg) (i : nat) :
  let s := ts_value this in
  let p := unstringTracify a in
  let r := unstringTracify b in
  let after := i + String.length p in
  String.index 0 p s = Some i ->
  hasDollarReference r = false ->
  handler_replace execEmptyLength integerOfText this (PatString a) (ReplString b)
  = Ok (VTracked
          (VString (String.substring 0 i s ++ r
                    ++ String.substring after (String.length s - after) s))
          (mkOrigin (Some "Replace Call")
             (String.substring 0 i s ++ r
              ++ String.substring after (String.length s - after) s)
             [IOrigin (ts_origin this); stringArgOrigin a; stringArgOrigin b] []
             (Some [mkSegment (IOrigin (ts_origin this)) 0 i;
                    mkSegment (stringArgOrigin b) 0 (String.length r);
                    mkSegment (IOrigin (ts_origin this)) (Z.of_nat after)
                      (String.length s - after)]))).
Proof.
  intros s p r after Hidx Hd. unfold handler_replace.
  rewrite (replaceTracked_at_first_occurrence execEmptyLength integerOfText this a
             (ReplString b) i r (stringArgOrigin b) Hidx).
  - reflexivity.
  - cbn [replaceWith]. fold r.
    now rewrite (expandDollars_literal _ _ _ _ _ Hd).
Qed.

Lemma replace_first_occurrence_witness :
  handler_replace noGroups notNumeric (tracked "a-b-c" (rootOrigin "a-b-c"))
    (PatString (Plain "-")) (ReplString (Plain "+"))
  = Ok (VTracked (VString "a+b-c")
          (mkOrigin (Some "Replace Call") "a+b-c"
             [IOrigin (rootOrigin "a-b-c"); IOrigin (untrackedArgument "-");
              IOrigin (untrackedArgument "+")] []
             (Some [mkSegment (IOrigin (rootOrigin "a-b-c")) 0 1;
                    mkSegment (IOrigin (untrackedArgument "+")) 0 1;
                    mkSegment (IOrigin (rootOrigin "a-b-c")) 2 3]))).
Proof.
  apply (replace_first_occurrence noGroups notNumeric (tracked "a-b-c" (rootOrigin "a-b-c"))
           (Plain "-") (Plain "+") 1); reflexivity.
Defined.

(** [replace] with a string pattern and the replacement text [$&] gives
    back the original string, whether the pattern occurs or not. *)
Theorem replace_by_matched_text_is_identity
  (execEmptyLength : string -> Result nat)
  (integerOfText : string -> nat -> nat) (this : TrackedString)
  (a : StringArg) :
  exists segments,
    handler_replace execEmptyLength integerOfText this (PatString a) (ReplString (Plain "$&"))
    = Ok (VTracked (VString (ts_value this))
            (mkOrigin (Some "Replace Call") (ts_value this)
               [IOrigin (ts_origin this); stringArgOrigin a;
                IOrigin (untrackedArgument "$&")] []
               (Some segments))).
Proof.
  destruct (String.index 0 (unstringTracify a) (ts_value this)) as [i|] eqn:Hidx.
  - eexists. unfold handler_replace.
    rewrite (replaceTracked_at_first_occurrence execEmptyLength integerOfText this a
               (ReplString (Plain "$&")) i (unstringTracify a ++ "")
               (IOrigin (untrackedArgument "$&")) Hidx) by reflexivity.
    cbn [bind fst snd]. unfold traceResult.
    rewrite append_empty_r.
    pose proof (index_bound _ _ _ _ Hidx) as Hb.
    pose proof (String.index_correct1 _ _ _ _ Hidx) as Hp.
    pose proof (substring_three (ts_value this) i
                  (String.length (unstringTracify a)) Hb) as H3.
    rewrite Hp in H3. rewrite H3. reflexivity.
  - eexists. unfold handler_replace, replaceTracked, replaceWithFunction.
    cbn [patternMatches]. unfold stringMatches. rewrite Hidx.
    cbn. now rewrite substringFrom_zero.
Qed.

(** ** replace: the [$] references that are not handled *)

Lemma expandDollars_not_handled execEmptyLength pattern m subs
  (pre : string) (d : ascii) (rest : string) :
  hasDollarReference pre = false ->
  d = "$"%char \/ d = "`"%char \/ d = "'"%char ->
  expandDollars execEmptyLength pattern m subs
    (pre ++ String "$" (String d rest))
  = Throw "not handled!!".
Proof.
  intros Hpre Hd.
  assert (Hthrow : forall tail,
             expandDollars execEmptyLength pattern m subs
               (String "$" (String d tail)) = Throw "not handled!!").
  { intros tail. destruct Hd as [->|[->| ->]]; reflexivity. }
  induction pre as [|c pre IH]; [apply Hthrow|].
  cbn [hasDollarReference] in Hpre.
  apply orb_false_elim in Hpre as [Hc Hrest]. specialize (IH Hrest).
  cbn [append expandDollars].
  destruct (c =? "$")%char eqn:Ec.
  - apply Ascii.eqb_eq in Ec. subst c.
    destruct pre as [|d1 pre1].
    + cbn [append]. destruct Hd as [->|[->| ->]]; reflexivity.
    + cbn [append] in *. simpl in Hc.
      apply orb_false_elim in Hc as [-> ->]. now rewrite IH.
  - now rewrite IH.
Qed.

(** A replacement text in which the first [$] reference is [$$], [$`] or
    [$'] makes [replace] throw as soon as the pattern matches. *)
Theorem replace_unhandled_dollar_throws
  (execEmptyLength : string -> Result nat)
  (integerOfText : string -> nat -> nat) (this : TrackedString)
  (pattern : Pattern) (b : StringArg) (pre : string) (d : ascii) (rest : string) :
  patternMatches pattern (ts_value this) <> [] ->
  unstringTracify b = pre ++ String "$" (String d rest) ->
  hasDollarReference pre = false ->
  d = "$"%char \/ d = "`"%char \/ d = "'"%char ->
  handler_replace execEmptyLength integerOfText this pattern (ReplString b)
  = Throw "not handled!!".
Proof.
  intros Hm Hb Hpre Hd.
  unfold handler_replace, replaceTracked, replaceWithFunction.
  destruct (patternMatches pattern (ts_value this)) as [|m ms]; [contradiction|].
  cbn [replaceLoop]. unfold replaceCallback at 1. cbn [replaceWith].
  rewrite Hb, (expandDollars_not_handled _ _ _ _ pre d rest Hpre Hd).
  reflexivity.
Qed.

Lemma replace_unhandled_dollar_throws_witness :
  handler_replace noGroups notNumeric (tracked "price" (rootOrigin "price"))
    (PatString (Plain "p")) (ReplString (Plain "US$$"))
  = Throw "not handled!!".
Proof.
  apply (replace_unhandled_dollar_throws noGroups notNumeric
           (tracked "price" (rootOrigin "price"))
           (PatString (Plain "p")) (Plain "US$$") "US" "$"%char "").
  - discriminate.
  - reflexivity.
  - reflexivity.
  - left. reflexivity.
Defined.

(** ** slice and substr: agreement with the native calls, sources *)

Lemma length_zero_empty (s : string) : String.length s = 0 -> s = "".
Proof. destruct s; [reflexivity | discriminate]. Qed.

(** The text found at a start index equals the text found at the start
    index clamped to the length. *)
Lemma substring_clamped_start (s : string) (k n : nat) :
  String.substring k
    (String.length (String.substring (Nat.min k (String.length s)) n s)) s
  = String.substring (Nat.min k (String.length s)) n s.
Proof.
  destruct (Nat.le_gt_cases k (String.length s)) as [L|L].
  - rewrite Nat.min_l by exact L. apply substring_idem.
  - rewrite Nat.min_r by lia.
    assert (E : String.substring (String.length s) n s = "").
    { apply length_zero_empty. rewrite substring_length. lia. }
    rewrite E. apply substring_zero_length.
Qed.

Lemma slice_end_normalized (len : nat) (t : Z) :
  (- Z.of_nat len <= t)%Z -> (t < 0)%Z ->
  JSString.relativeIndex len (Z.of_nat len + t) = JSString.relativeIndex len t.
Proof.
  intros H1 H2. unfold JSString.relativeIndex.
  rewrite (proj2 (Z.ltb_lt t 0) H2).
  rewrite (proj2 (Z.ltb_ge (Z.of_nat len + t) 0)) by lia. lia.
Qed.

(** For integer arguments: unless the end index is below minus the
    length, the tracked [slice] returns what the native [slice] returns
    for the same start and end index, with one segment recorded at
    [from]. *)
Theorem slice_agrees_with_native (this : TrackedString) (from : Z) (to : option Z) :
  match to with
  | Some t => (- Z.of_nat (String.length (ts_value this)) <= t)%Z
  | None => True
  end ->
  let newVal := JSString.slice (ts_value this) from to in
  exists inputValues,
    handler_slice this from to
    = Ok (VTracked (VString newVal)
            (mkOrigin (Some "Slice Call") newVal inputValues []
               (Some [mkSegment (IOrigin (ts_origin this)) from
                        (String.length newVal)]))).
Proof.
  intros Hto newVal.
  assert (E : fst (sliceTracked this from to) = newVal).
  { unfold sliceTracked, newVal. cbn [fst].
    destruct to as [t|]; [|reflexivity].
    destruct (t <? 0)%Z eqn:T; [|reflexivity].
    apply Z.ltb_lt in T. unfold JSString.slice.
    now rewrite slice_end_normalized. }
  eexists. unfold handler_slice, traceResult, serialize.
  cbv zeta. rewrite slice_one_segment, E.
  reflexivity.
Qed.

Lemma slice_agrees_with_native_witness :
  exists inputValues,
    handler_slice (tracked "hello world" (rootOrigin "hello world")) 0
      (Some (-6)%Z)
    = Ok (VTracked (VString "hello")
            (mkOrigin (Some "Slice Call") "hello" inputValues []
               (Some [mkSegment (IOrigin (rootOrigin "hello world")) 0 5]))).
Proof.
  apply (slice_agrees_with_native
           (tracked "hello world" (rootOrigin "hello world")) 0 (Some (-6)%Z)).
  simpl. lia.
Defined.

(** For a start index that is not negative the segment of a tracked
    [slice] points at the output: the text of the original string at the
    recorded offset, for the segment's length, is the output. *)
Theorem slice_segment_points_at_output
  (this : TrackedString) (from : Z) (to : option Z) :
  (0 <= from)%Z ->
  Coherent this ->
  reconstruct (items (snd (sliceTracked this from to)))
  = fst (sliceTracked this from to).
Proof.
  intros Hfrom Hco. rewrite slice_one_segment.
  unfold reconstruct, sourceText. cbn [fold_right seg_originOffset seg_length
    seg_origin inputValue_value]. rewrite append_empty_r, Hco.
  assert (Hk : forall len, JSString.relativeIndex len from
                           = Nat.min (Z.to_nat from) len).
  { intros len. unfold JSString.relativeIndex.
    now rewrite (proj2 (Z.ltb_ge from 0) Hfrom). }
  unfold sliceTracked. cbn [fst]. unfold JSString.slice. rewrite !Hk.
  apply substring_clamped_start.
Qed.

Lemma slice_segment_points_at_output_witness :
  reconstruct
    (items (snd (sliceTracked (tracked "hello world" (rootOrigin "hello world"))
                   6 (Some 11%Z))))
  = fst (sliceTracked (tracked "hello world" (rootOrigin "hello world"))
           6 (Some 11%Z)).
Proof.
  apply (slice_segment_points_at_output
           (tracked "hello world" (rootOrigin "hello world")) 6 (Some 11%Z)).
  - lia.
  - reflexivity.
Defined.

Lemma substr_normalized_agrees (this : TrackedString) (start : Z)
  (length : option Z) :
  (- Z.of_nat (String.length (ts_value this)) <= start)%Z ->
  fst (substrTracked this start length)
  = JSString.substr (ts_value this) start length.
Proof.
  intros Hlow. unfold substrTracked. cbn [fst].
  set (s := ts_value this) in *.
  unfold JSString.substr, JSString.relativeIndex.
  destruct (start <? 0)%Z eqn:T.
  - apply Z.ltb_lt in T.
    rewrite (proj2 (Z.ltb_ge (Z.of_nat (String.length s) + start) 0)) by lia.
    destruct length as [l|]; f_equal; lia.
  - apply Z.ltb_ge in T. rewrite (proj2 (Z.ltb_ge start 0) T).
    destruct length as [l|]; f_equal; lia.
Qed.

(** For integer arguments: unless the start index is below minus the
    length, the tracked [substr] returns what the native [substr] returns
    for the same start index and length, with one segment recorded at
    the normalized start. *)
Theorem substr_agrees_with_native
  (this : TrackedString) (start : Z) (length : option Z) :
  (- Z.of_nat (String.length (ts_value this)) <= start)%Z ->
  let newVal := JSString.substr (ts_value this) start length in
  let start1 :=
    (if start <? 0 then Z.of_nat (String.length (ts_value this)) + start
     else start)%Z in
  exists inputValues,
    handler_substr this start length
    = Ok (VTracked (VString newVal)
            (mkOrigin (Some "Substr Call") newVal inputValues []
               (Some [mkSegment (IOrigin (ts_origin this)) start1
                        (String.length newVal)]))).
Proof.
  intros Hlow newVal start1.
  assert (E : fst (substrTracked this start length) = newVal).
  { apply (substr_normalized_agrees this start length Hlow). }
  eexists. unfold handler_substr, traceResult, serialize.
  cbv zeta. rewrite substr_one_segment, E. reflexivity.
Qed.

Lemma substr_agrees_with_native_witness :
  exists inputValues,
    handler_substr (tracked "hello world" (rootOrigin "hello world")) (-5)
      (Some 3%Z)
    = Ok (VTracked (VString "wor")
            (mkOrigin (Some "Substr Call") "wor" inputValues []
               (Some [mkSegment (IOrigin (rootOrigin "hello world")) 6 3]))).
Proof.
  apply (substr_agrees_with_native
           (tracked "hello world" (rootOrigin "hello world")) (-5) (Some 3%Z)).
  simpl. lia.
Defined.

(** For a start index that is not below minus the length the segment of
    a tracked [substr] points at the output. *)
Theorem substr_segment_points_at_output
  (this : TrackedString) (start : Z) (length : option Z) :
  (- Z.of_nat (String.length (ts_value this)) <= start)%Z ->
  Coherent this ->
  reconstruct (items (snd (substrTracked this start length)))
  = fst (substrTracked this start length).
Proof.
  intros Hlow Hco. rewrite substr_one_segment.
  unfold reconstruct, sourceText. cbn [fold_right seg_originOffset seg_length
    seg_origin inputValue_value]. rewrite append_empty_r, Hco.
  set (start1 := (if (start <? 0)%Z
                  then (Z.of_nat (String.length (ts_value this)) + start)%Z
                  else start)).
  assert (H1 : (0 <= start1)%Z).
  { unfold start1. destruct (start <? 0)%Z eqn:T; [lia|].
    now apply Z.ltb_ge in T. }
  assert (Hk : forall len, JSString.relativeIndex len start1
                           = Nat.min (Z.to_nat start1) len).
  { intros len. unfold JSString.relativeIndex.
    now rewrite (proj2 (Z.ltb_ge start1 0) H1). }
  unfold substrTracked. cbn [fst]. fold start1.
  unfold JSString.substr. rewrite !Hk.
  apply substring_clamped_start.
Qed.

Lemma substr_segment_points_at_output_witness :
  reconstruct
    (items (snd (substrTracked (tracked "hello world" (rootOrigin "hello world"))
                   (-5) None)))
  = fst (substrTracked (tracked "hello world" (rootOrigin "hello world"))
           (-5) None).
Proof.
  apply (substr_segment_points_at_output
           (tracked "hello world" (rootOrigin "hello world")) (-5) None).
  - simpl. lia.
  - reflexivity.
Defined.

(** ** split: agreement with the native call *)

Lemma splitFragments_values inputValues separators (res : list (option string)) :
  forall i cur l,
    splitFragments inputValues separators res i cur = Ok l ->
    Forall2 (splitResult inputValues) res l.
Proof.
  induction res as [|[str|] res IH]; intros i cur l; cbn [splitFragments].
  - intros H. injection H as <-. constructor.
  - destruct separators as [seps|]; [|discriminate].
    rewrite makeTraceObject_string. cbn [bind].
    destruct (splitFragments inputValues (Some seps) res (S i) _) as [ts|] eqn:E;
      [|discriminate].
    cbn [bind]. intros H. injection H as <-.
    constructor; [|now apply (IH _ _ _ E)].
    eexists. repeat split.
  - discriminate.
Qed.

Lemma traceArray_of_results inputValues inputs (res : list (option string)) :
  forall l, Forall2 (splitResult inputs) res l ->
            traceArray "split" inputValues l = Ok l.
Proof.
  induction 1 as [|[str|] v res l Hv _ IH]; [reflexivity| |].
  - destruct Hv as (o & -> & _). cbn [traceArray bind]. now rewrite IH.
  - simpl in Hv. subst v. cbn [traceArray bind]. now rewrite IH.
Qed.

Lemma traceArray_of_fragments inputValues (res : list (option string)) :
  exists l, traceArray "split" inputValues (map fragmentValue res) = Ok l
            /\ Forall2 (splitResult inputValues) res l.
Proof.
  induction res as [|[str|] res (l & E & IH)].
  - exists []. split; [reflexivity | constructor].
  - cbn [map traceArray fragmentValue].
    rewrite makeTraceObject_string, E. cbn [bind].
    eexists. split; [reflexivity|]. constructor; [|exact IH].
    eexists. repeat split.
  - cbn [map traceArray fragmentValue]. rewrite E. cbn [bind].
    eexists. split; [reflexivity|]. constructor; [reflexivity | exact IH].
Qed.

(** Whenever a tracked [split] returns, without limit or with an integer
    limit and for every kind of separator, it returns one value for each
    element of the array the native [split] returns, in the same order:
    for a fragment a tracked string whose origin records the fragment,
    the action and the inputs of the call, which begin with the origin
    of the subject and the separator, and for an [undefined] element (a
    capture group that took no part in the match) [undefined] itself. *)
Theorem split_agrees_with_native (this : TrackedString) (separator : Separator)
  (limit : option Z) (l : list JSValue) :
  handler_split this separator limit = Ok l ->
  exists rest,
    Forall2
      (splitResult
         (IOrigin (ts_origin this) :: separatorOrigin separator :: rest))
      (splitLimit (nativeSplit (ts_value this) separator) limit) l.
Proof.
  intros Hret.
  exists (match limit with
          | Some n => [otherArgOrigin (JSString.ofZ n)]
          | None => []
          end).
  revert Hret. unfold handler_split.
  set (inputValues := (IOrigin (ts_origin this) :: separatorOrigin separator
                       :: _)%list).
  destruct limit as [n|].
  - cbn [bind].
    destruct (traceArray_of_fragments inputValues
                (splitLimit (nativeSplit (ts_value this) separator) (Some n)))
      as (l' & E & H).
    rewrite E. intros H'. injection H' as <-. exact H.
  - destruct (splitFragments inputValues _ _ 0 0) as [newVal|] eqn:E;
      [|discriminate].
    cbn [bind]. apply splitFragments_values in E.
    rewrite (traceArray_of_results inputValues inputValues _ _ E).
    intros H. injection H as <-. exact E.
Qed.

Lemma split_agrees_with_native_witness :
  exists rest,
    Forall2
      (splitResult
         (IOrigin (rootOrigin "a,b,c") :: otherArgOrigin "/,/" :: rest))
      [Some "a"; Some "b"]
      [VTracked (VString "a")
         (mkOrigin (Some "Split Call") "a"
            [IOrigin (rootOrigin "a,b,c"); otherArgOrigin "/,/";
             otherArgOrigin "2"]
            [] None);
       VTracked (VString "b")
         (mkOrigin (Some "Split Call") "b"
            [IOrigin (rootOrigin "a,b,c"); otherArgOrigin "/,/";
             otherArgOrigin "2"]
            [] None)].
Proof.
  apply (split_agrees_with_native (tracked "a,b,c" (rootOrigin "a,b,c"))
           (SepRegExp (literalRegExp "," false)) (Some 2%Z)).
  reflexivity.
Defined.

(** With a capture group that takes no part in the match, as for
    [/(x)?b/] on ["abc"], the native result holds [undefined]: the call
    with a limit hands it on, the call without limit throws when it
    reads its length. *)
Example split_undefined_fragment :
  let re := {| re_toString := "/(x)?b/";
               re_replaceMatches := fun _ =>
                 [{| m_match := "b"; m_submatches := [None]; m_offset := 1;
                     m_groups := None |}];
               re_matchGlobal := fun _ => Some ["b"];
               re_split := fun _ => [Some "a"; None; Some "c"] |} in
  let inputValues :=
    [IOrigin (rootOrigin "abc"); otherArgOrigin "/(x)?b/"; otherArgOrigin "5"] in
  handler_split (tracked "abc" (rootOrigin "abc")) (SepRegExp re) (Some 5%Z)
  = Ok [VTracked (VString "a")
          (mkOrigin (Some "Split Call") "a" inputValues [] None);
        VUndefined;
        VTracked (VString "c")
          (mkOrigin (Some "Split Call") "c" inputValues [] None)]
  /\ handler_split (tracked "abc" (rootOrigin "abc")) (SepRegExp re) None
     = Throw "TypeError".
Proof. split; reflexivity. Qed.

(** ** match with a global expression *)

Lemma searchFrom_found (matcher : Matcher) (s : string) :
  forall steps i j e,
    searchFrom matcher s steps i = Some (j, e) ->
    i <= j /\ matcher s j = Some e.
Proof.
  induction steps as [|k IH]; intros i j e; cbn [searchFrom];
    destruct (matcher s i) as [e'|] eqn:M.
  - intros H. injection H as <- <-. auto.
  - discriminate.
  - intros H. injection H as <- <-. auto.
  - intros H. apply IH in H as [H1 H2]. split; [lia | exact H2].
Qed.

Lemma searchFrom_first (matcher : Matcher) (s : string) (j e : nat) :
  matcher s j = Some e ->
  forall steps i,
    i <= j -> j <= i + steps ->
    (forall k, i <= k -> k < j -> matcher s k = None) ->
    searchFrom matcher s steps i = Some (j, e).
Proof.
  intros Hj. induction steps as [|k IH]; intros i Hi Hs Hnone; cbn [searchFrom].
  - assert (i = j) by lia. subst i. now rewrite Hj.
  - destruct (Nat.eq_dec i j) as [->|Hne]; [now rewrite Hj|].
    rewrite (Hnone i) by lia.
    apply IH; [lia | lia |]. intros k' H1 H2. apply Hnone; lia.
Qed.

Lemma matchLoop_returns (matcher : Matcher) (s : string) :
  (forall i e, matcher s i = Some e -> i < e /\ e <= String.length s) ->
  forall fuel lastIndex from acc,
    String.length s - lastIndex < fuel ->
    from <= lastIndex ->
    Forall (MatchedText matcher s from) acc ->
    exists r,
      matchLoop fuel matcher s lastIndex acc = Some (r, 0)
      /\ match r with
         | None => acc = []
         | Some ms => ms <> [] /\ Forall (MatchedText matcher s from) ms
         end.
Proof.
  intros Hwf. induction fuel as [|fuel IH]; intros lastIndex from acc Hf Hfrom Hacc;
    [lia|].
  cbn [matchLoop]. unfold exec.
  assert (Hend : exists r,
             Some (match acc with [] => None | _ :: _ => Some acc end, 0)
             = Some (r, 0)
             /\ match r with
                | None => acc = []
                | Some ms => ms <> [] /\ Forall (MatchedText matcher s from) ms
                end).
  { destruct acc as [|x acc']; eexists; (split; [reflexivity|]);
      [reflexivity | split; [discriminate | exact Hacc]]. }
  destruct (String.length s <? lastIndex)%nat; [exact Hend|].
  destruct (searchFrom matcher s (String.length s - lastIndex) lastIndex)
    as [[i e]|] eqn:E; [|exact Hend].
  apply searchFrom_found in E as [Hi Hm].
  destruct (Hwf i e Hm) as [Hie He].
  destruct (IH e from (acc ++ [JSString.substring s i e])%list) as (r & Hr & Hres).
  - lia.
  - lia.
  - apply Forall_app. split; [exact Hacc|]. constructor; [|constructor].
    exists i, e. repeat split; [lia | exact Hm].
  - exists r. split; [exact Hr|].
    destruct r as [ms|]; [exact Hres|].
    now destruct acc.
Qed.

(** When every match of a global expression in the tracked string is not
    empty (and lies inside the string), the [match] loop ends after at
    most [length - lastIndex + 1] calls of [exec]: it leaves [lastIndex]
    at 0 and returns [null] or a non-empty array of matched texts, each
    of them starting at or after the [lastIndex] the expression had when
    the call began. *)
Theorem match_global_returns (matcher : Matcher) (this : TrackedString)
  (lastIndex fuel : nat) :
  (forall i e, matcher (ts_value this) i = Some e ->
               i < e /\ e <= String.length (ts_value this)) ->
  String.length (ts_value this) - lastIndex < fuel ->
  exists r,
    handler_match_global fuel matcher this lastIndex = Some (r, 0)
    /\ match r with
       | None => True
       | Some ms =>
           ms <> []
           /\ Forall (MatchedText matcher (ts_value this) lastIndex) ms
       end.
Proof.
  intros Hwf Hf.
  destruct (matchLoop_returns matcher (ts_value this) Hwf fuel lastIndex
              lastIndex [] Hf (le_n _) (Forall_nil _)) as (r & Hr & Hres).
  exists r. split; [exact Hr|]. now destruct r.
Qed.

Lemma literalMatcher_progress (lit : string) (s : string) (i e : nat) :
  lit <> "" -> literalMatcher lit s i = Some e ->
  i < e /\ e <= String.length s.
Proof.
  intros Hlit. unfold literalMatcher.
  destruct (String.prefix lit _ && (i + String.length lit <=? String.length s)%nat)
    eqn:B; [|discriminate].
  intros H. injection H as <-. apply andb_prop in B as [_ B].
  apply Nat.leb_le in B. split; [|exact B].
  destruct lit; [contradiction | simpl; lia].
Qed.

Lemma match_global_returns_witness :
  exists r,
    handler_match_global 4 (literalMatcher "o") (tracked "foo" (rootOrigin "foo")) 0
    = Some (r, 0)
    /\ match r with
       | None => True
       | Some ms =>
           ms <> [] /\ Forall (MatchedText (literalMatcher "o") "foo" 0) ms
       end.
Proof.
  apply (match_global_returns (literalMatcher "o")
           (tracked "foo" (rootOrigin "foo")) 0 4).
  - intros i e. apply literalMatcher_progress. discriminate.
  - simpl. lia.
Defined.

Example match_global_ex :
  handler_match_global 4 (literalMatcher "o") (tracked "foo" (rootOrigin "foo")) 0
  = Some (Some ["o"; "o"], 0).
Proof. reflexivity. Qed.

Lemma matchLoop_stuck (matcher : Matcher) (s : string) (j : nat) :
  matcher s j = Some j -> j <= String.length s ->
  forall fuel acc, matchLoop fuel matcher s j acc = None.
Proof.
  intros Hj Hlen. induction fuel as [|fuel IH]; intros acc; [reflexivity|].
  cbn [matchLoop]. unfold exec.
  rewrite (proj2 (Nat.ltb_ge _ _) Hlen).
  rewrite (searchFrom_first matcher s j j Hj) by (try lia; intros; lia).
  apply IH.
Qed.

(** When the first match of a global expression at or after its
    [lastIndex] is empty, the [match] loop never ends: [exec] leaves
    [lastIndex] where the empty match is and finds it again, so no number
    of [exec] calls is enough. *)
Theorem match_global_empty_match_never_returns (matcher : Matcher)
  (this : TrackedString) (lastIndex j : nat) :
  matcher (ts_value this) j = Some j ->
  lastIndex <= j -> j <= String.length (ts_value this) ->
  (forall k, lastIndex <= k -> k < j -> matcher (ts_value this) k = None) ->
  forall fuel, handler_match_global fuel matcher this lastIndex = None.
Proof.
  intros Hj Hlo Hhi Hnone fuel. unfold handler_match_global.
  destruct fuel as [|fuel]; [reflexivity|].
  cbn [matchLoop]. unfold exec.
  rewrite (proj2 (Nat.ltb_ge _ _)) by lia.
  rewrite (searchFrom_first matcher (ts_value this) j j Hj) by (try lia; exact Hnone).
  now apply matchLoop_stuck.
Qed.

Lemma match_global_empty_match_never_returns_witness :
  handler_match_global 1000 (literalMatcher "") (tracked "abc" (rootOrigin "abc")) 0
  = None.
Proof.
  apply (match_global_empty_match_never_returns (literalMatcher "")
           (tracked "abc" (rootOrigin "abc")) 0 0).
  - reflexivity.
  - lia.
  - simpl. lia.
  - intros k H1 H2. lia.
Defined.

(** ** makeTraceObject: when it throws *)



(** ** The tracing switch, used repeatedly *)

Import TracingCycles.

Lemma wrapped_depth (n : nat) (name : string) : forall i,
  depth (wrapped n name i) = n + depth i.
Proof.
  induction n as [|n IH]; intros i; [reflexivity|].
  cbn [wrapped]. rewrite IH. simpl. lia.
Qed.

Lemma cycles_invariant (e : Env) (n : nat) : forall st,
  tracingEnabled st = false ->
  saved st = saved (load e) ->
  tracingEnabled (cycles n st) = false
  /\ saved (cycles n st) = saved (load e)
  /\ Element_removeAttribute (env (cycles n st))
     = wrapped n "removeAttribute" (Element_removeAttribute (env st))
  /\ (0 < n ->
      document_createElement (env (cycles n st)) = document_createElement e
      /\ Node_appendChild (env (cycles n st)) = Node_appendChild e
      /\ Element_setAttribute (env (cycles n st)) = Element_setAttribute e
      /\ Element_className (env (cycles n st)) = Element_className e
      /\ JSON_parse (env (cycles n st)) = JSON_parse e
      /\ Element_innerHTML (env (cycles n st)) = Element_innerHTML e
      /\ localStorage_getItem (env (cycles n st)) = localStorage_getItem e
      /\ RegExp_exec (env (cycles n st)) = RegExp_exec e
      /\ window_Function (env (cycles n st)) = window_Function e).
Proof.
  induction n as [|n IH]; intros st Hoff Hsaved.
  - split; [exact Hoff|]. split; [exact Hsaved|]. split; [reflexivity|].
    intros H0. lia.
  - cbn [cycles].
    assert (Hoff' : tracingEnabled (disableTracing (enableTracing st)) = false)
      by (unfold enableTracing, disableTracing; rewrite Hoff; reflexivity).
    assert (Hsaved' : saved (disableTracing (enableTracing st)) = saved (load e))
      by (unfold enableTracing, disableTracing; rewrite Hoff; exact Hsaved).
    destruct (IH _ Hoff' Hsaved') as (H1 & H2 & H3 & H4).
    split; [exact H1|]. split; [exact H2|]. split.
    + rewrite H3. unfold enableTracing, disableTracing. rewrite Hoff.
      reflexivity.
    + intros _. destruct n as [|n]; [|apply H4; lia].
      cbn [cycles]. unfold enableTracing, disableTracing. rewrite Hoff.
      cbn. rewrite Hsaved. repeat split.
Qed.

(** After [n] rounds of [enableTracing] and [disableTracing] on a
    freshly loaded page, tracing is off and nine of the ten slots hold
    their original values again, but [removeAttribute] is wrapped [n]
    times: every round adds one more tracing wrapper around it. *)
Theorem removeAttribute_wrapped_once_per_cycle (e : Env) (n : nat) :
  let st := cycles n (load e) in
  tracingEnabled st = false
  /\ document_createElement (env st) = document_createElement e
  /\ Node_appendChild (env st) = Node_appendChild e
  /\ Element_setAttribute (env st) = Element_setAttribute e
  /\ Element_className (env st) = Element_className e
  /\ JSON_parse (env st) = JSON_parse e
  /\ Element_innerHTML (env st) = Element_innerHTML e
  /\ localStorage_getItem (env st) = localStorage_getItem e
  /\ RegExp_exec (env st) = RegExp_exec e
  /\ window_Function (env st) = window_Function e
  /\ Element_removeAttribute (env st)
     = wrapped n "removeAttribute" (Element_removeAttribute e)
  /\ depth (Element_removeAttribute (env st))
     = n + depth (Element_removeAttribute e).
Proof.
  intros st.
  destruct (cycles_invariant e n (load e) eq_refl eq_refl) as (H1 & _ & H3 & H4).
  fold st in H1, H3, H4.
  assert (H9 : document_createElement (env st) = document_createElement e
      /\ Node_appendChild (env st) = Node_appendChild e
      /\ Element_setAttribute (env st) = Element_setAttribute e
      /\ Element_className (env st) = Element_className e
      /\ JSON_parse (env st) = JSON_parse e
      /\ Element_innerHTML (env st) = Element_innerHTML e
      /\ localStorage_getItem (env st) = localStorage_getItem e
      /\ RegExp_exec (env st) = RegExp_exec e
      /\ window_Function (env st) = window_Function e).
  { destruct n as [|n]; [repeat split | apply H4; lia]. }
  split; [exact H1|].
  destruct H9 as (A1 & A2 & A3 & A4 & A5 & A6 & A7 & A8 & A9).
  cbn [load env] in H3.
  repeat (split; [assumption|]).
  rewrite H3. apply wrapped_depth.
Qed.

(** ** The [/traverse] handler, whatever the store answers *)

Lemma lastEvent_cons2 (a b : Event) (l : list Event) :
  lastEvent (a :: b :: l) = lastEvent (b :: l).
Proof. reflexivity. Qed.

Lemma tryTraverseFrom_bounds (hasLog : nat -> bool) :
  forall fuel p events,
    tryTraverseFrom fuel hasLog p = Some events ->
    countChecks events <= S fuel
    /\ totalWait events <= timeout * fuel
    /\ (lastEvent events = Some FinishRequest
        \/ lastEvent events = Some (Respond timedOutResponse)).
Proof.
  induction fuel as [|fuel IH]; intros p events; cbn [tryTraverseFrom];
    (destruct (hasLog p);
     [intros H; injection H as <-; cbn; repeat split; try lia; now left|]);
    (destruct (2000 <? timeout * p)%nat;
     [intros H; injection H as <-; cbn; repeat split; try lia; now right|]).
  - discriminate.
  - destruct (tryTraverseFrom fuel hasLog (p + 1)) as [rest|] eqn:E;
      [|discriminate].
    cbn [option_map]. intros H. injection H as <-.
    destruct (IH _ _ E) as (H1 & H2 & H3).
    split; [|split].
    + unfold countChecks in *. cbn [filter List.length]. lia.
    + unfold totalWait in *. cbn [fold_right]. unfold timeout in *. lia.
    + destruct rest as [|x rest].
      * destruct H3 as [H3|H3]; discriminate H3.
      * rewrite !lastEvent_cons2. exact H3.
Qed.

(** Whatever the existence check answers over time, the [/traverse]
    handler comes to an end: it checks at most ten times, waits at most
    2250 ms in all, and ends either by going on to [finishRequest] or by
    answering with the timed-out error. *)
Theorem traverse_always_ends (hasLog : nat -> bool) :
  exists events,
    tryTraverse hasLog = Some events
    /\ countChecks events <= 10
    /\ totalWait events <= 2250
    /\ (lastEvent events = Some FinishRequest
        \/ lastEvent events = Some (Respond timedOutResponse)).
Proof.
  destruct (tryTraverse_returns hasLog) as [events E].
  exists events. split; [exact E|].
  apply tryTraverseFrom_bounds in E. exact E.
Qed.

Lemma tryTraverseFrom_found (hasLog : nat -> bool) (k : nat) :
  hasLog k = true ->
  (forall j, j < k -> hasLog j = false) ->
  k <= 9 ->
  forall d p fuel,
    p + d = k -> d <= fuel ->
    tryTraverseFrom fuel hasLog p
    = Some (flat_map (fun j => [HasLog j; SetTimeout 250]) (seq p d)
              ++ [HasLog k; FinishRequest])%list.
Proof.
  intros Hk Hbefore Hk9. induction d as [|d IH]; intros p fuel Hp Hf.
  - assert (p = k) by lia. subst p.
    destruct fuel; cbn [tryTraverseFrom]; now rewrite Hk.
  - destruct fuel as [|fuel]; [lia|]. cbn [tryTraverseFrom].
    rewrite (Hbefore p) by lia.
    assert (T : (2000 <? timeout * p)%nat = false)
      by (apply Nat.ltb_ge; unfold timeout; lia).
    rewrite T. rewrite (IH (p + 1) fuel) by lia.
    cbn [option_map seq flat_map app]. now rewrite Nat.add_1_r.
Qed.

(** When the record shows up at the check number [k] (counted from 0,
    at most 9) and not before, the handler has checked [k + 1] times,
    250 ms apart, and goes on to [finishRequest]; no error is sent. *)
Theorem traverse_finds_late_record (hasLog : nat -> bool) (k : nat) :
  hasLog k = true ->
  (forall j, j < k -> hasLog j = false) ->
  k <= 9 ->
  tryTraverse hasLog
  = Some (flat_map (fun j => [HasLog j; SetTimeout 250]) (seq 0 k)
            ++ [HasLog k; FinishRequest])%list.
Proof.
  intros Hk Hbefore Hk9. unfold tryTraverse.
  apply (tryTraverseFrom_found hasLog k Hk Hbefore Hk9 k 0); [reflexivity|].
  simpl. lia.
Qed.

Lemma traverse_finds_late_record_witness :
  tryTraverse (fun j => 3 <=? j)%nat
  = Some (flat_map (fun j => [HasLog j; SetTimeout 250]) (seq 0 3)
            ++ [HasLog 3; FinishRequest])%list.
Proof.
  apply (traverse_finds_late_record (fun j => 3 <=? j)%nat 3).
  - reflexivity.
  - intros j H. apply Nat.leb_gt. exact H.
  - lia.
Defined.

(** ** The [/inspect] endpoint *)

Import Inspect.

Lemma postInspect_unauthorized cfg clients st req :
  authorized cfg req = false ->
  exists exn, postInspect cfg clients st req = (st, Thrown allowCrossOrigin exn).
Proof.
  unfold authorized, postInspect, verifyToken.
  destruct (authorization req) as [a|]; [|eauto].
  intros ->. eauto.
Qed.

Lemma postInspect_authorized cfg clients st req :
  authorized cfg req = true ->
  fst (postInspect cfg clients st req)
  = {| logToInspect := logId req;
       isInspectingDemoApp := demoAppReferer cfg req |}.
Proof.
  unfold authorized, postInspect, verifyToken.
  destruct (authorization req) as [a|]; [|discriminate].
  intros ->. reflexivity.
Qed.

Lemma last_map_Some_snoc {A : Type} (l : list A) (x : A) :
  List.last (map Some (l ++ [x])) None = Some x.
Proof.
  induction l as [|y l IH]; [reflexivity|].
  cbn [app map]. destruct (map Some (l ++ [x])) eqn:E.
  - destruct l; discriminate E.
  - cbn [last]. exact IH.
Qed.

(** After any series of POST requests to [/inspect], what a GET reads is
    what the last request with the right access token set: its log id,
    and whether its referer is the start page of this backend.  Requests
    without the right token throw and change nothing; when there is no
    request with the right token the state is the one before. *)
Theorem inspect_reads_last_authorized_post (cfg : Config)
  (clients : list Client) (st : Inspect.State) (reqs : list Request) :
  getInspect (afterPosts cfg clients st reqs)
  = match lastAuthorized cfg reqs with
    | Some req => (logId req, demoAppReferer cfg req)
    | None => getInspect st
    end.
Proof.
  induction reqs as [|req reqs IH] using rev_ind; [reflexivity|].
  unfold afterPosts, lastAuthorized in *.
  rewrite fold_left_app, filter_app. cbn [fold_left filter].
  destruct (authorized cfg req) eqn:A.
  - rewrite last_map_Some_snoc.
    now rewrite (postInspect_authorized cfg clients _ req A).
  - rewrite app_nil_r.
    destruct (postInspect_unauthorized cfg clients
                (fold_left (fun st0 req0 => fst (postInspect cfg clients st0 req0))
                   reqs st) req A) as [exn ->].
    exact IH.
Qed.

Example inspect_ex :
  let cfg := {| accessToken := "secret"; bePort := 3000 |} in
  getInspect
    (afterPosts cfg [] initialState
       [{| authorization := Some "secret";
           referer := Some "http://localhost:3000/start/index.html";
           logId := Some 12 |};
        {| authorization := Some "guess"; referer := None; logId := Some 99 |};
        {| authorization := None; referer := None; logId := Some 100 |}])
  = (Some 12, true).
Proof. reflexivity. Qed.

(** ** replace: the number of segments *)

Lemma replaceCallback_segment_count execEmptyLength integerOfText oldValue
  pattern replacement (m : Match) (st : ReplaceState) (r : string * ReplaceState) :
  replaceCallback execEmptyLength integerOfText oldValue pattern replacement m st
  = Ok r ->
  List.length (items (valueMap (snd r))) = List.length (items (valueMap st)) + 2.
Proof.
  unfold replaceCallback. cbv zeta.
  destruct (replaceWith _ _ _ _ _ _ _) as [rw|e]; cbn [bind]; [|discriminate].
  intros H. injection H as <-. cbn [snd valueMap]. unfold appendString.
  cbn [items]. rewrite !length_app. cbn [List.length]. lia.
Qed.

Lemma replaceLoop_segment_count execEmptyLength integerOfText oldValue pattern
  replacement (ms : list Match) :
  forall next acc st r,
    replaceLoop (ts_value oldValue)
      (replaceCallback execEmptyLength integerOfText oldValue pattern replacement)
      ms next acc st = Ok r ->
    List.length (items (valueMap (snd r)))
    = List.length (items (valueMap st)) + 2 * List.length ms.
Proof.
  induction ms as [|m ms IH]; intros next acc st r; cbn [replaceLoop].
  - intros H. injection H as <-. cbn. lia.
  - destruct (replaceCallback execEmptyLength integerOfText oldValue pattern replacement m st)
      as [r1|e] eqn:Ecb; cbn [bind]; [|discriminate].
    pose proof (replaceCallback_segment_count _ _ _ _ _ _ _ _ Ecb) as Hit.
    intros H.
    assert (Hr : List.length (items (valueMap (snd r)))
                 = List.length (items (valueMap (snd r1))) + 2 * List.length ms).
    { destruct (next <=? m_offset m)%nat; exact (IH _ _ _ _ H). }
    rewrite Hr, Hit. cbn [List.length]. lia.
Qed.

(** Whenever a tracked [replace] returns, its value map has two segments
    for every match the native [replace] reports, an unchanged span and
    a replacement, and one more for the rest of the string. *)
Theorem replace_segment_count
  (execEmptyLength : string -> Result nat)
  (integerOfText : string -> nat -> nat) (this : TrackedString)
  (pattern : Pattern) (replacement : Replacement) (r : JSValue) :
  handler_replace execEmptyLength integerOfText this pattern replacement = Ok r ->
  exists newVal origin segments,
    r = VTracked (VString newVal) origin
    /\ o_valueItems origin = Some segments
    /\ List.length segments
       = 2 * List.length (patternMatches pattern (ts_value this)) + 1.
Proof.
  intros H. apply handler_replace_inv in H as (newVal & vm & Hrt & ->).
  do 3 eexists. split; [reflexivity|]. split; [reflexivity|].
  unfold replaceTracked, replaceWithFunction in Hrt.
  destruct (replaceLoop _ _ _ _ _ _) as [r1|e] eqn:E; [|discriminate].
  cbn [bind] in Hrt. injection Hrt as _ <-.
  apply replaceLoop_segment_count in E.
  unfold appendString. cbn [items]. rewrite length_app, E. cbn. lia.
Qed.

Lemma replace_segment_count_witness :
  exists newVal origin segments,
    VTracked (VString "f0o")
      (mkOrigin (Some "Replace Call") "f0o"
         [IOrigin (rootOrigin "foo"); otherArgOrigin "/o/";
          IOrigin (untrackedArgument "0")] []
         (Some [mkSegment (IOrigin (rootOrigin "foo")) 0 1;
                mkSegment (IOrigin (untrackedArgument "0")) 0 1;
                mkSegment (IOrigin (rootOrigin "foo")) 2 1]))
    = VTracked (VString newVal) origin
    /\ o_valueItems origin = Some segments
    /\ List.length segments
       = 2 * List.length (patternMatches (PatRegExp (literalRegExp "o" false)) "foo")
         + 1.
Proof.
  apply (replace_segment_count noGroups notNumeric (tracked "foo" (rootOrigin "foo"))
           (PatRegExp (literalRegExp "o" false)) (ReplString (Plain "0"))).
  reflexivity.
Defined.

Lemma split_string_fragments_located_witness :
  String.substring 2 (String.length "b") "a,b,c" = "b".
Proof.
  apply (proj2 (proj2 (split_string_fragments_located
                         (tracked "a,b,c" (rootOrigin "a,b,c")) (Plain ",")))
           1 "b" 2); reflexivity.
Defined.
